(** * The NLP plugin: fragment location, tag normalisation, decoration field,
    document cache and start-up, embedded from [src/main.ts]. *)

From stdpp Require Import gmap strings list fin_maps sorting.
From Stdlib Require Import ZArith Lia.

Open Scope string_scope.
Open Scope Z_scope.
Open Scope list_scope.

(** ** JavaScript strings

  A JavaScript string is a finite sequence of code units.  The plugin only
  compares code units for equality and counts them, so an [ascii] stands
  for one code unit and [String.length] for [.length]. *)

Module JS.

Definition length (s : string) : Z := Z.of_nat (String.length s).

Fixpoint drop (n : nat) (s : string) : string :=
  match n, s with
  | O, _ => s
  | S n', String _ s' => drop n' s'
  | S _, EmptyString => EmptyString
  end.

Fixpoint take (n : nat) (s : string) : string :=
  match n, s with
  | S n', String c s' => String c (take n' s')
  | _, _ => EmptyString
  end.

(** [s.slice(0, n)] for a literal [n >= 0]. *)
Definition slice0 (s : string) (n : nat) : string := take n s.

(** StringIndexOf of the language standard: the candidates are tried from
    [i] upwards; [s] is the part of the string from index [i] on. *)
Fixpoint StringIndexOf (s search : string) (i : nat) : option nat :=
  if String.prefix search s then Some i
  else match s with
       | EmptyString => None
       | String _ s' => StringIndexOf s' search (S i)
       end.

(** [s.indexOf(search, position)]: the position is clamped into
    [0 .. s.length], the result is [-1] when nothing is found. *)
Definition clamp (s : string) (position : Z) : Z :=
  Z.min (Z.max position 0) (length s).

Definition indexOf (s search : string) (position : Z) : Z :=
  let start := Z.to_nat (clamp s position) in
  match StringIndexOf (drop start s) search start with
  | Some i => Z.of_nat i
  | None => -1
  end.

(** [search] occurs in [s] at index [i]. *)
Definition occurs_at (s search : string) (i : Z) : Prop :=
  0 <= i /\ i + length search <= length s /\
  String.prefix search (drop (Z.to_nat i) s) = true.

(** A number used as a condition: zero is false. *)
Definition truthy (n : Z) : bool := negb (n =? 0).

(** [array.join(sep)] on an array of strings. *)
Definition join (sep : string) (l : list string) : string :=
  String.concat sep l.

End JS.

(** ** Exceptions *)

Definition exn := string.

Inductive result (A : Type) :=
  | Ok (a : A)
  | Throw (e : exn).
Arguments Ok {A} a.
Arguments Throw {A} e.

(** ** Decorations

  [Decoration.mark({class})] and the ranges of the editor library, kept as
  plain data: a mark carries its class attribute and a range carries its two
  offsets and its mark. *)

Record Decoration := mark { class : string }.

Record Range := range { from : Z; to : Z; value : Decoration }.

(** [mark.range(from, to)] as the editor library runs it: a mark decoration
    may not be empty, the call throws a [RangeError] when [from >= to]. *)
Definition markRange (d : Decoration) (start stop : Z) : result Range :=
  if start >=? stop then Throw "RangeError: Mark decorations may not be empty"
  else Ok (range start stop d).

Definition classedMark (classes : list string) : Decoration :=
  mark (JS.join " " classes).

(** ** Tag normalisation *)

Definition removeBias (tag : string) : string :=
  if String.eqb tag "MaleName" then "MasculineName"
  else if String.eqb tag "FemaleName" then "FeminineName"
  else tag.

(** ** The parts-of-speech pass *)

Module PoS.

Record Term := { text : string; tags : list string; pre : string; post : string }.

(** The two variables the [forEach] callback updates. *)
Record Locals := { currOffset : Z; posMarks : list Range }.

Definition init : Locals := {| currOffset := 0; posMarks := [] |}.

(** One call of the callback of [termsArr.forEach]. *)
Definition step (content : string) (st : Locals) (term : Term) : Locals :=
  let start := JS.indexOf content (text term) (currOffset st) in
  let currOffset' := start + JS.length (text term) in
  {| currOffset := currOffset';
     posMarks :=
       if JS.truthy (JS.length (text term)) then
         posMarks st ++
         [range start currOffset' (classedMark (map removeBias (tags term)))]
       else posMarks st |}.

Definition run (content : string) (st : Locals) (termsArr : list Term) : Locals :=
  fold_left (step content) termsArr st.

(** The ranges dispatched by the command. *)
Definition highlight (content : string) (termsArr : list Term) : list Range :=
  posMarks (run content init termsArr).

(** Every fragment is found when its turn comes. *)
Fixpoint all_found (content : string) (cur : Z) (termsArr : list Term) : bool :=
  match termsArr with
  | [] => true
  | term :: rest =>
      let start := JS.indexOf content (text term) cur in
      negb (start =? -1) && all_found content (start + JS.length (text term)) rest
  end.

(** The fragments occur in the text one after the other, from [cur] on. *)
Fixpoint in_order (content : string) (cur : Z) (termsArr : list Term) : Prop :=
  match termsArr with
  | [] => True
  | term :: rest =>
      exists i, cur <= i /\ JS.occurs_at content (text term) i /\
                in_order content (i + JS.length (text term)) rest
  end.

End PoS.

(** ** The sentence pass *)

Module Sentences.

Record Sentence := { text : string }.

Record Locals := { currOffset : Z; sentenceMarks : list Range }.

Definition init : Locals := {| currOffset := 0; sentenceMarks := [] |}.

(** One call of the callback of [.map]: when [range] returns, its result is
    appended to the array under construction; when it throws, so does the
    callback. *)
Definition step (content : string) (st : Locals) (sentence : Sentence) : result Locals :=
  let start := JS.indexOf content (JS.slice0 (text sentence) 5) (currOffset st) in
  let currOffset' := start + JS.length (text sentence) in
  match markRange (classedMark ["Sentence"]) start currOffset' with
  | Ok r => Ok {| currOffset := currOffset'; sentenceMarks := sentenceMarks st ++ [r] |}
  | Throw e => Throw e
  end.

(** [.map] calls the callback on the sentences in their order; an exception
    of the callback ends it. *)
Fixpoint run (content : string) (st : Locals) (l : list Sentence) : result Locals :=
  match l with
  | [] => Ok st
  | sentence :: rest =>
      match step content st sentence with
      | Ok st' => run content st' rest
      | Throw e => Throw e
      end
  end.

(** The ranges the command dispatches; nothing is dispatched when the pass
    throws. *)
Definition highlight (content : string) (l : list Sentence) : result (list Range) :=
  match run content init l with
  | Ok st => Ok (sentenceMarks st)
  | Throw e => Throw e
  end.

(** The first five characters of every sentence are found when its turn
    comes. *)
Fixpoint all_found (content : string) (cur : Z) (l : list Sentence) : bool :=
  match l with
  | [] => true
  | sentence :: rest =>
      let start := JS.indexOf content (JS.slice0 (text sentence) 5) cur in
      negb (start =? -1) && all_found content (start + JS.length (text sentence)) rest
  end.

End Sentences.

(** ** The commands around the two passes *)

(** A sentence of the analyser's [json()] output, as far as the
    parts-of-speech command reads it. *)
Record SentenceJson := { terms : list PoS.Term }.

(** [json.map((sentence) => sentence.terms).flat()] *)
Definition termsArr (json : list SentenceJson) : list PoS.Term :=
  concat (map terms json).

(** The ranges of the fragments [termsArr], located from the cursor [cur]
    on with nothing collected yet. *)
Definition posMarksFrom (content : string) (cur : Z) (termsArr : list PoS.Term)
  : list Range :=
  PoS.posMarks (PoS.run content {| PoS.currOffset := cur; PoS.posMarks := [] |} termsArr).

Definition sentenceMarksFrom (content : string) (cur : Z) (l : list Sentences.Sentence)
  : result (list Range) :=
  match Sentences.run content
          {| Sentences.currOffset := cur; Sentences.sentenceMarks := [] |} l with
  | Ok st => Ok (Sentences.sentenceMarks st)
  | Throw e => Throw e
  end.

(** ** The analysed documents of the language model

    The plugin reads three properties of an item ([its.type],
    [its.stopWordFlag], [its.value]) and two collections of a document. *)

Module Wink.

Record Item := { its_type : string; its_stopWordFlag : bool; its_value : string }.

Record Document := { tokens : list Item; entities : list Item }.

(** The argument [type: "tokens" | "entities"]. *)
Inductive Collection := Tokens | Entities.

Definition collection (doc : Document) (type : Collection) : list Item :=
  match type with
  | Tokens => tokens doc
  | Entities => entities doc
  end.

(** [as.bow]: every value is counted, [bow[v] = 1 + (bow[v] || 0)]. *)
Definition as_bow (values : list string) : gmap string nat :=
  fold_left (fun bow v => <[v := S (default O (bow !! v))]> bow) values ∅.

(** [as.set]: the set of the values. *)
Definition as_set (values : list string) : gset string :=
  fold_left (fun set v => {[v]} ∪ set) values ∅.

End Wink.

(** A parameter that may hold [null] or [undefined]. *)
Inductive Nullable (A : Type) :=
  | null
  | undefined
  | object (a : A).
Arguments null {A}.
Arguments undefined {A}.
Arguments object {A} a.

(** The callback of both filters. *)
Definition noStop (item : Wink.Item) : bool :=
  String.eqb (Wink.its_type item) "word" && negb (Wink.its_stopWordFlag item).

(** [type] is an optional argument, ["tokens"] when it is left out. *)
Definition getNoStopBoW (doc : Nullable Wink.Document) (type : option Wink.Collection)
  : gmap string nat :=
  let type := default Wink.Tokens type in
  match doc with
  | null | undefined => ∅
  | object d => Wink.as_bow (map Wink.its_value (List.filter noStop (Wink.collection d type)))
  end.

Definition getNoStopSet (doc : Nullable Wink.Document) (type : option Wink.Collection)
  : gset string :=
  let type := default Wink.Tokens type in
  match doc with
  | null | undefined => ∅
  | object d => Wink.as_set (map Wink.its_value (List.filter noStop (Wink.collection d type)))
  end.

(** ** The document cache *)

Record TFile := { path : string }.

Section DocCache.

(** The workspace's active file, the vault's [cachedRead] and the model's
    [readDoc]; the last two may throw. *)
Variable activeFile : Nullable TFile.
Variable cachedRead : TFile -> result string.
Variable readDoc : string -> result Wink.Document.

(** The parameter [file] defaults to the active file when it is left out. *)
Definition getWinkDocFromFile (file : Nullable TFile) : result (Nullable Wink.Document) :=
  let file := match file with undefined => activeFile | _ => file end in
  match file with
  | object f =>
      match cachedRead f with
      | Ok text =>
          match readDoc text with
          | Ok doc => Ok (object doc)
          | Throw e => Throw e
          end
      | Throw e => Throw e
      end
  | _ => Ok null
  end.

(** A line written to the console: [console.log(e)] writes the exception,
    [console.timeEnd(label)] writes the label with the time elapsed since
    [console.time(label)], which itself writes nothing. *)
Inductive ConsoleLine :=
  | logged (e : exn)
  | timeEnd (label : string).

(** What [refreshDocs] leaves behind: the cache, the messages the notice has
    shown, and what was written to the console. *)
Record Refreshed := {
  Docs : gmap string (Nullable Wink.Document);
  notice : list string;
  console : list ConsoleLine
}.

(** The [for] loop inside [try]: it stops at the first exception. *)
Fixpoint refreshLoop (files : list TFile) (docs : gmap string (Nullable Wink.Document))
  : gmap string (Nullable Wink.Document) * option exn :=
  match files with
  | [] => (docs, None)
  | file :: rest =>
      match getWinkDocFromFile (object file) with
      | Ok doc => refreshLoop rest (<[path file := doc]> docs)
      | Throw e => (docs, Some e)
      end
  end.

Definition refreshDocs (markdownFiles : list TFile)
    (docs : gmap string (Nullable Wink.Document)) : Refreshed :=
  let shown := ["Refreshing docs..."] in
  match refreshLoop markdownFiles docs with
  | (docs', None) =>
      {| Docs := docs'; notice := shown ++ ["Docs Refreshed"];
         console := [timeEnd "refreshDocs"] |}
  | (docs', Some e) =>
      {| Docs := docs';
         notice := shown ++ ["An error occured, check the console for more information."];
         console := [logged e; timeEnd "refreshDocs"] |}
  end.

End DocCache.

(** ** The range set of the decoration field *)

Module Change.

Record DocumentChange := { from : Z; to : Z; insertedLength : Z }.

(** The net change of length, [insertedLength - (to - from)]. *)
Definition delta (c : DocumentChange) : Z := insertedLength c - (to c - from c).

(** The same change, with its offsets moved by [shift]. *)
Definition rebase (shift : Z) (c : DocumentChange) : DocumentChange :=
  {| from := from c + shift; to := to c + shift; insertedLength := insertedLength c |}.

End Change.

Module RangeSet.

(** Modelled from the spec: the range set ([Decoration.none], [value.map] and
    [value.update] belong to the editor library, which is not among the
    sources).  [insert] puts one range at its place in the order of [from]. *)
Fixpoint insert (r : Range) (set : list Range) : list Range :=
  match set with
  | [] => [r]
  | x :: rest => if from r <? from x then r :: x :: rest else x :: insert r rest
  end.

(** Modelled from the spec: [addAll] of the range set, a merge-insert that
    keeps the order of [from]. *)
Definition addAll (ranges : list Range) (set : list Range) : list Range :=
  fold_left (fun acc r => insert r acc) ranges set.

(** Modelled from the spec: [filter] of the range set keeps the ranges that
    satisfy the predicate. *)
Definition filter (predicate : Range -> bool) (set : list Range) : list Range :=
  List.filter predicate set.

(** Modelled from the spec: what [mapThroughChange] of the range set does to
    one range.  A range that ends at or before [from] is kept, a range that
    starts at or after [to] moves by the net change of length, any other
    range is dropped. *)
Definition mapRange (c : Change.DocumentChange) (r : Range) : option Range :=
  if to r <=? Change.from c then Some r
  else if Change.to c <=? from r then
    Some (range (from r + Change.delta c) (to r + Change.delta c) (value r))
  else None.

(** Modelled from the spec: [mapThroughChange] of the range set. *)
Definition mapThroughChange (c : Change.DocumentChange) (set : list Range) : list Range :=
  omap (mapRange c) set.

(** Modelled from the spec: a transaction's changes, applied from left to
    right; their offsets are those of the text before the transaction, so
    each is moved by the net change of length of the ones before it. *)
Fixpoint mapThroughChanges (shift : Z) (changes : list Change.DocumentChange)
    (set : list Range) : list Range :=
  match changes with
  | [] => set
  | c :: rest =>
      mapThroughChanges (shift + Change.delta c) rest
        (mapThroughChange (Change.rebase shift c) set)
  end.

(** The invariant of the data model: ascending [from], and [0 <= from < to]. *)
Definition valid (r : Range) : Prop := 0 <= from r < to r.

Definition sorted (set : list Range) : Prop :=
  StronglySorted (fun a b => from a <= from b) set.

Definition invariant (set : list Range) : Prop :=
  sorted set /\ Forall valid set.

(** [a] lies wholly before [b]. *)
Definition before (a b : Range) : Prop := to a <= from b.

(** Two half-open ranges share a position. *)
Definition overlap (a b : Range) : Prop := from a < to b /\ from b < to a.

(** A change replaces [from .. to) by [insertedLength] characters; the
    changes of one transaction come in ascending order and do not overlap. *)
Fixpoint wf_changes (lo : Z) (changes : list Change.DocumentChange) : Prop :=
  match changes with
  | [] => True
  | c :: rest =>
      lo <= Change.from c /\ Change.from c <= Change.to c /\
      0 <= Change.insertedLength c /\ wf_changes (Change.to c) rest
  end.

End RangeSet.

(** The effects the field reacts to; any other effect is left alone. *)
Inductive Effect :=
  | addMarks (v : list Range)
  | filterMarks (v : Range -> bool)
  | otherEffect.

Record Transaction := { changes : list Change.DocumentChange; effects : list Effect }.

(** [dispatch({ effects: addMarks.of(marks) })], the transaction both
    highlight commands end with: it changes no text. *)
Definition dispatchMarks (marks : list Range) : Transaction :=
  {| changes := []; effects := [addMarks marks] |}.

Module markField.

Definition create : list Range := [].

(** The body of the [for] loop over [tr.effects]. *)
Definition apply (value : list Range) (effect : Effect) : list Range :=
  match effect with
  | addMarks v => RangeSet.addAll v value
  | filterMarks v => RangeSet.filter v value
  | otherEffect => value
  end.

Definition update (value : list Range) (tr : Transaction) : list Range :=
  let value := RangeSet.mapThroughChanges 0 (changes tr) value in
  fold_left apply (effects tr) value.

Definition wf_effect (e : Effect) : Prop :=
  match e with
  | addMarks v => Forall RangeSet.valid v
  | _ => True
  end.

Definition wf_transaction (tr : Transaction) : Prop :=
  RangeSet.wf_changes 0 (changes tr) /\ Forall wf_effect (effects tr).

End markField.

(** ** Start-up *)

Record Command := { id : string; name : string }.

(** The two settings [onload] reads. *)
Record Settings := { customEntityFilePath : string; refreshDocsOnLoad : bool }.

Record CustomEntityExample := { entity_name : string; patterns : list string }.

Inductive Extension := StateField (field : string).

(** What [onload] has done to the plugin and its host so far. *)
Record Plugin := {
  settingTabs : nat;
  learnedEntities : option (list CustomEntityExample);
  commands : list Command;
  editorExtensions : list Extension;
  layoutReadyCallbacks : nat
}.

Definition unloaded : Plugin :=
  {| settingTabs := 0%nat; learnedEntities := None; commands := [];
     editorExtensions := []; layoutReadyCallbacks := 0%nat |}.

(** A computation of [onload]: it changes the plugin and returns or throws. *)
Definition M (A : Type) : Type := Plugin -> Plugin * result A.

Definition ret {A} (a : A) : M A := fun p => (p, Ok a).

Definition bind {A B} (m : M A) (k : A -> M B) : M B :=
  fun p => match m p with
           | (p', Ok a) => k a p'
           | (p', Throw e) => (p', Throw e)
           end.

Definition lift {A} (r : result A) : M A := fun p => (p, r).

Notation "x <- m ;; k" := (bind m (fun x => k))
  (at level 100, m at level 99, right associativity).
Notation "m ;; k" := (bind m (fun _ => k))
  (at level 100, right associativity).

Fixpoint forEach {A} (l : list A) (f : A -> M unit) : M unit :=
  match l with
  | [] => ret tt
  | a :: rest => f a ;; forEach rest f
  end.

Definition addSettingTab : M unit :=
  fun p =>
    ({| settingTabs := S (settingTabs p); learnedEntities := learnedEntities p;
        commands := commands p; editorExtensions := editorExtensions p;
        layoutReadyCallbacks := layoutReadyCallbacks p |}, Ok tt).

(** [winkModel.learnCustomEntities(examples)]: the model checks the examples
    and throws on those it does not accept ([learn] says which); otherwise
    it has learned them. *)
Definition learnCustomEntities (learn : list CustomEntityExample -> result unit)
    (examples : list CustomEntityExample) : M unit :=
  fun p =>
    match learn examples with
    | Ok _ =>
        ({| settingTabs := settingTabs p; learnedEntities := Some examples;
            commands := commands p; editorExtensions := editorExtensions p;
            layoutReadyCallbacks := layoutReadyCallbacks p |}, Ok tt)
    | Throw e => (p, Throw e)
    end.

Definition addCommand (c : Command) : M unit :=
  fun p =>
    ({| settingTabs := settingTabs p; learnedEntities := learnedEntities p;
        commands := commands p ++ [c]; editorExtensions := editorExtensions p;
        layoutReadyCallbacks := layoutReadyCallbacks p |}, Ok tt).

Definition registerEditorExtension (e : Extension) : M unit :=
  fun p =>
    ({| settingTabs := settingTabs p; learnedEntities := learnedEntities p;
        commands := commands p; editorExtensions := editorExtensions p ++ [e];
        layoutReadyCallbacks := layoutReadyCallbacks p |}, Ok tt).

Definition onLayoutReady : M unit :=
  fun p =>
    ({| settingTabs := settingTabs p; learnedEntities := learnedEntities p;
        commands := commands p; editorExtensions := editorExtensions p;
        layoutReadyCallbacks := S (layoutReadyCallbacks p) |}, Ok tt).

Section Onload.

(** The settings after [loadSettings], the vault adapter's [read],
    [normalizePath], [JSON.parse] at the type of the examples, the check of
    the model's [learnCustomEntities], and the two tables of [./const]. *)
Variable settings : Settings.
Variable read : string -> result string.
Variable normalizePath : string -> string.
Variable JSON_parse : string -> result (list CustomEntityExample).
Variable learn : list CustomEntityExample -> result unit.
Variable TEXT_MANIPULATION_CMDS : list (string * list string).
Variable ENTITIES : list string.

Definition loadCustomEntities : M unit :=
  if String.eqb (customEntityFilePath settings) "" then ret tt
  else
    customEntitiesStr <- lift (read (normalizePath (customEntityFilePath settings))) ;;
    customEntities <- lift (JSON_parse customEntitiesStr) ;;
    learnCustomEntities learn customEntities.

Definition modalCommand (modalType : string) : Command :=
  {| id := "open-" +:+ modalType; name := "Open " +:+ modalType +:+ " Modal" |}.

Definition manipulationCommand (pos fn : string) : Command :=
  {| id := pos +:+ " - " +:+ fn; name := pos +:+ " - " +:+ fn |}.

Definition entityCommand (entity : string) : Command :=
  {| id := "entity - " +:+ entity; name := "entity - " +:+ entity |}.

(** Everything [onload] registers after the custom entities are dealt with. *)
Definition registerAll : M unit :=
  forEach ["Markup"; "Match"; "PoS"] (fun modalType => addCommand (modalCommand modalType)) ;;
  addCommand {| id := "refresh-docs"; name := "Refresh Docs" |} ;;
  registerEditorExtension (StateField "markField") ;;
  addCommand {| id := "highlight-parts-of-speech"; name := "Highlight Parts of Speech" |} ;;
  addCommand {| id := "highlight-sentences"; name := "Highlight Sentences" |} ;;
  forEach TEXT_MANIPULATION_CMDS (fun entry =>
    forEach (snd entry) (fun fn => addCommand (manipulationCommand (fst entry) fn))) ;;
  forEach ENTITIES (fun entity => addCommand (entityCommand entity)) ;;
  (if refreshDocsOnLoad settings then onLayoutReady else ret tt).

Definition onload : M unit :=
  addSettingTab ;;
  loadCustomEntities ;;
  registerAll.

(** The commands of a plugin that has finished loading, in the order of
    their registration. *)
Definition allCommands : list Command :=
  map modalCommand ["Markup"; "Match"; "PoS"] ++
  [ {| id := "refresh-docs"; name := "Refresh Docs" |};
    {| id := "highlight-parts-of-speech"; name := "Highlight Parts of Speech" |};
    {| id := "highlight-sentences"; name := "Highlight Sentences" |} ] ++
  concat (map (fun entry => map (manipulationCommand (fst entry)) (snd entry))
              TEXT_MANIPULATION_CMDS) ++
  map entityCommand ENTITIES.

End Onload.

(** The plugin after [cs] more commands have been added. *)
Definition addCommands (cs : list Command) (p : Plugin) : Plugin :=
  {| settingTabs := settingTabs p; learnedEntities := learnedEntities p;
     commands := commands p ++ cs; editorExtensions := editorExtensions p;
     layoutReadyCallbacks := layoutReadyCallbacks p |}.

(** ** The active file *)

Section ActiveFile.

Variable activeFile : Nullable TFile.
Variable cachedRead : TFile -> result string.
Variable read : TFile -> result string.

(** [cached] is an optional argument, [true] when it is left out. *)
Definition getActiveFileContent (cached : option bool) : result (Nullable string) :=
  let cached := default true cached in
  match activeFile with
  | object currFile =>
      match (if cached then cachedRead currFile else read currFile) with
      | Ok text => Ok (object text)
      | Throw e => Throw e
      end
  | _ => Ok null
  end.

End ActiveFile.

(** ** The settings *)

Section SettingsData.

(** The values of the settings. *)
Variable V : Type.

(** [Object.assign(target, ...sources)]: the properties of each source are
    copied onto the target, the later source wins; a source that is [null]
    or [undefined] is skipped. *)
Definition Object_assign (target : gmap string V) (sources : list (Nullable (gmap string V)))
  : gmap string V :=
  fold_left (fun acc source =>
               match source with
               | object o => o ∪ acc
               | _ => acc
               end) sources target.

(** [loadSettings], given [DEFAULT_SETTINGS] of [./const] and what
    [loadData] resolves to. *)
Definition loadSettings (DEFAULT_SETTINGS : gmap string V)
    (data : Nullable (gmap string V)) : gmap string V :=
  Object_assign ∅ [object DEFAULT_SETTINGS; data].

(** [saveSettings] hands the settings to [saveData]. *)
Definition saveSettings (settings : gmap string V) : Nullable (gmap string V) :=
  object settings.

End SettingsData.

(** ** Scenario E of the document cache

    Three paths; the load of the second one fails. *)

Definition scenarioE_files : list TFile :=
  [ {| path := "1.md" |}; {| path := "2.md" |}; {| path := "3.md" |} ].

Definition scenarioE_cachedRead (file : TFile) : result string :=
  if String.eqb (path file) "2.md" then Throw "read failed" else Ok "Some text.".

Definition scenarioE_doc : Wink.Document :=
  {| Wink.tokens := [ {| Wink.its_type := "word"; Wink.its_stopWordFlag := true;
                         Wink.its_value := "Some" |};
                      {| Wink.its_type := "word"; Wink.its_stopWordFlag := false;
                         Wink.its_value := "text" |};
                      {| Wink.its_type := "punctuation"; Wink.its_stopWordFlag := false;
                         Wink.its_value := "." |} ];
     Wink.entities := [] |}.

Definition scenarioE_readDoc (text : string) : result Wink.Document := Ok scenarioE_doc.

(** * Properties *)

(** ** [indexOf] *)

Lemma length_drop n s : String.length (JS.drop n s) = (String.length s - n)%nat.
Proof.
  revert s; induction n as [|n IH]; intros [|c s]; simpl; try lia.
  apply IH.
Qed.

Lemma drop_drop k n s : JS.drop k (JS.drop n s) = JS.drop (n + k) s.
Proof.
  revert s; induction n as [|n IH]; intros s; simpl; [done|].
  destruct s as [|c s]; [by destruct k | apply IH].
Qed.

Lemma prefix_length t s :
  String.prefix t s = true -> (String.length t <= String.length s)%nat.
Proof.
  revert s; induction t as [|a t IH]; intros [|b s]; simpl; try lia; try discriminate.
  destruct (Ascii.ascii_dec a b); [|discriminate].
  intros H; apply IH in H; lia.
Qed.

Lemma prefix_empty s : String.prefix "" s = true.
Proof. by destruct s. Qed.

Lemma StringIndexOf_eq s t i :
  JS.StringIndexOf s t i =
  if String.prefix t s then Some i
  else match s with
       | EmptyString => None
       | String _ s' => JS.StringIndexOf s' t (S i)
       end.
Proof. by destruct s. Qed.

Lemma StringIndexOf_Some s t i j :
  JS.StringIndexOf s t i = Some j ->
  exists k, j = (i + k)%nat /\ (k <= String.length s)%nat /\
    String.prefix t (JS.drop k s) = true /\
    forall k', (k' < k)%nat -> String.prefix t (JS.drop k' s) = false.
Proof.
  revert i; induction s as [|c s IH]; intros i; rewrite StringIndexOf_eq.
  - destruct (String.prefix t "") eqn:E; [|discriminate].
    intros [= <-]. exists 0%nat. repeat split; try lia. done.
  - destruct (String.prefix t (String c s)) eqn:E.
    + intros [= <-]. exists 0%nat. repeat split; try lia. done.
    + intros H. destruct (IH _ H) as (k & -> & Hk & Hp & Hmin).
      exists (S k). repeat split; [lia | simpl; lia | done |].
      intros [|k'] Hlt; [done|]. apply Hmin; lia.
Qed.

Lemma StringIndexOf_None s t i :
  JS.StringIndexOf s t i = None -> forall k, String.prefix t (JS.drop k s) = false.
Proof.
  revert i; induction s as [|c s IH]; intros i; rewrite StringIndexOf_eq.
  - destruct (String.prefix t "") eqn:E; [discriminate|].
    intros _ [|k]; done.
  - destruct (String.prefix t (String c s)) eqn:E; [discriminate|].
    intros H [|k]; [done|]. by apply (IH _ H).
Qed.

Lemma clamp_range s p : 0 <= JS.clamp s p <= JS.length s.
Proof. unfold JS.clamp, JS.length. lia. Qed.

Lemma clamp_id s p : 0 <= p <= JS.length s -> JS.clamp s p = p.
Proof. unfold JS.clamp. lia. Qed.

(** What [indexOf] returns: [-1] when there is no occurrence at or after the
    clamped position, and otherwise the leftmost such occurrence. *)
Lemma indexOf_spec s t p :
  (JS.indexOf s t p = -1 /\ forall j, JS.clamp s p <= j -> ~ JS.occurs_at s t j) \/
  (JS.clamp s p <= JS.indexOf s t p /\ JS.occurs_at s t (JS.indexOf s t p) /\
   forall j, JS.clamp s p <= j < JS.indexOf s t p -> ~ JS.occurs_at s t j).
Proof.
  pose proof (clamp_range s p) as Hc. unfold JS.indexOf.
  set (start := Z.to_nat (JS.clamp s p)).
  assert (Hstart : JS.clamp s p = Z.of_nat start) by (unfold start; lia).
  destruct (JS.StringIndexOf (JS.drop start s) t start) as [i|] eqn:E.
  - right. apply StringIndexOf_Some in E as (k & -> & Hk & Hp & Hmin).
    rewrite drop_drop in Hp. rewrite length_drop in Hk.
    pose proof (prefix_length _ _ Hp) as Hl. rewrite length_drop in Hl.
    unfold JS.length in *. split; [lia|]. split.
    + unfold JS.occurs_at, JS.length. rewrite Nat2Z.id. repeat split; try lia. done.
    + intros j Hj (_ & _ & Hocc).
      specialize (Hmin (Z.to_nat j - start)%nat).
      rewrite drop_drop in Hmin.
      replace (start + (Z.to_nat j - start))%nat with (Z.to_nat j) in Hmin by lia.
      rewrite Hmin in Hocc; [done | lia].
  - left. split; [done|]. intros j Hj (_ & _ & Hocc).
    pose proof (StringIndexOf_None _ _ _ E (Z.to_nat j - start)%nat) as Hn.
    rewrite drop_drop in Hn.
    replace (start + (Z.to_nat j - start))%nat with (Z.to_nat j) in Hn by lia.
    by rewrite Hn in Hocc.
Qed.

Lemma indexOf_found s t p :
  JS.indexOf s t p <> -1 ->
  JS.clamp s p <= JS.indexOf s t p /\ JS.indexOf s t p + JS.length t <= JS.length s.
Proof.
  destruct (indexOf_spec s t p) as [[H _]|(H1 & (_ & H2 & _) & _)]; [done|]. lia.
Qed.

(** The empty string is found at the clamped position. *)
Lemma indexOf_empty s p : JS.indexOf s "" p = JS.clamp s p.
Proof.
  pose proof (clamp_range s p). unfold JS.indexOf.
  destruct (JS.drop _ s); simpl; lia.
Qed.

(** ** Lists of ranges in ascending order *)

Lemma StronglySorted_lookup {A} (R : relation A) (l : list A) i j a b :
  StronglySorted R l -> (i < j)%nat -> l !! i = Some a -> l !! j = Some b -> R a b.
Proof.
  intros Hs; revert i j; induction Hs as [|x l Hs IH Hx]; intros i j Hij Hi Hj.
  - done.
  - destruct j as [|j]; [lia|]. destruct i as [|i]; simpl in *.
    + injection Hi as <-. rewrite Forall_forall in Hx.
      apply Hx. eapply list_elem_of_lookup_2, Hj.
    + apply (IH i j); [lia | done | done].
Qed.

(** ** The parts-of-speech pass *)

(** The two cases of [if (text.length)]. *)
Ltac case_text_length term H :=
  unfold JS.truthy in *;
  destruct (Z.eqb_spec (JS.length (PoS.text term)) 0) as [H|H];
  cbn [negb] in *.

Lemma pos_run_cons content st term rest :
  PoS.run content st (term :: rest) = PoS.run content (PoS.step content st term) rest.
Proof. done. Qed.

(** The ranges collected so far stay at the front of the result. *)
Lemma pos_run_app content rest : forall st,
  PoS.posMarks (PoS.run content st rest) =
  PoS.posMarks st ++
  PoS.posMarks (PoS.run content {| PoS.currOffset := PoS.currOffset st; PoS.posMarks := [] |} rest).
Proof.
  induction rest as [|term rest IH]; intros st.
  - simpl. by rewrite app_nil_r.
  - rewrite !pos_run_cons, IH.
    rewrite (IH (PoS.step _ {| PoS.currOffset := _; PoS.posMarks := [] |} _)).
    unfold PoS.step; simpl. case_text_length term H; simpl.
    + done.
    + by rewrite <- app_assoc.
Qed.

(** An unmatched, non-empty fragment: [-1] is used as its start. *)
Lemma pos_step_not_found content st term :
  PoS.text term <> "" ->
  JS.indexOf content (PoS.text term) (PoS.currOffset st) = -1 ->
  PoS.step content st term =
  {| PoS.currOffset := JS.length (PoS.text term) - 1;
     PoS.posMarks := PoS.posMarks st ++
       [range (-1) (JS.length (PoS.text term) - 1)
              (classedMark (map removeBias (PoS.tags term)))] |}.
Proof.
  intros Hne Hidx. unfold PoS.step. rewrite Hidx.
  replace (-1 + JS.length (PoS.text term)) with (JS.length (PoS.text term) - 1) by lia.
  case_text_length term H0; [|done].
  destruct (PoS.text term); [done | unfold JS.length in H0; simpl in H0; lia].
Qed.

Lemma length_zero s : JS.length s = 0 <-> s = "".
Proof.
  unfold JS.length. destruct s; simpl; split; intros; try done; lia.
Qed.

(** While every fragment is found, the cursor stays inside the text and the
    ranges form a chain: each is non-empty, starts at or after [0], ends at or
    before the cursor, and lies wholly before the ones after it. *)
Lemma pos_run_chain content termsArr : forall st,
  0 <= PoS.currOffset st <= JS.length content ->
  StronglySorted RangeSet.before (PoS.posMarks st) ->
  Forall (fun r => 0 <= from r < to r /\ to r <= PoS.currOffset st) (PoS.posMarks st) ->
  PoS.all_found content (PoS.currOffset st) termsArr = true ->
  let st' := PoS.run content st termsArr in
  0 <= PoS.currOffset st' <= JS.length content /\
  StronglySorted RangeSet.before (PoS.posMarks st') /\
  Forall (fun r => 0 <= from r < to r /\ to r <= PoS.currOffset st') (PoS.posMarks st').
Proof.
  induction termsArr as [|term rest IH]; intros st Hcur Hsorted Hall Hfound.
  - done.
  - simpl in Hfound. apply andb_true_iff in Hfound as [Hidx Hrest].
    apply negb_true_iff, Z.eqb_neq in Hidx.
    destruct (indexOf_found _ _ _ Hidx) as [Hlo Hhi].
    rewrite clamp_id in Hlo by done.
    assert (0 <= JS.length (PoS.text term)) by (unfold JS.length; lia).
    rewrite pos_run_cons. apply IH; unfold PoS.step; simpl.
    + lia.
    + case_text_length term Hlen; [done|].
      apply StronglySorted_app. repeat split.
      * intros a b Ha Hb. apply list_elem_of_singleton in Hb as ->.
        rewrite Forall_forall in Hall. specialize (Hall a Ha).
        unfold RangeSet.before; simpl. lia.
      * done.
      * repeat constructor.
    + assert (Forall (fun r => 0 <= from r < to r /\ to r <=
                JS.indexOf content (PoS.text term) (PoS.currOffset st) +
                JS.length (PoS.text term)) (PoS.posMarks st)) as Hall'.
      { eapply Forall_impl; [exact Hall|]. simpl; intros; lia. }
      case_text_length term Hlen; [done|].
      apply Forall_app; split; [done|]. repeat constructor; simpl; lia.
    + done.
Qed.

(** One range for each non-empty fragment. *)
Lemma pos_run_length content termsArr : forall st,
  Forall (fun term => PoS.text term <> "") termsArr ->
  length (PoS.posMarks (PoS.run content st termsArr)) =
  (length (PoS.posMarks st) + length termsArr)%nat.
Proof.
  induction termsArr as [|term rest IH]; intros st Hne.
  - simpl. lia.
  - apply Forall_cons in Hne as [Hterm Hrest].
    rewrite pos_run_cons, IH by done. unfold PoS.step; simpl.
    case_text_length term H0.
    + by apply length_zero in H0.
    + rewrite length_app; simpl; lia.
Qed.

(** Every range carries the normalised tags of one of the fragments. *)
Lemma pos_run_classes content termsArr : forall st r,
  r ∈ PoS.posMarks (PoS.run content st termsArr) ->
  r ∈ PoS.posMarks st \/
  exists term, term ∈ termsArr /\ PoS.text term <> "" /\
    value r = classedMark (map removeBias (PoS.tags term)) /\
    to r - from r = JS.length (PoS.text term).
Proof.
  induction termsArr as [|term rest IH]; intros st r Hr.
  - by left.
  - rewrite pos_run_cons in Hr. apply IH in Hr as [Hr|(t & Ht & H)].
    + unfold PoS.step in Hr; simpl in Hr.
      case_text_length term Hlen; [by left|].
      apply elem_of_app in Hr as [Hr|Hr]; [by left|].
      apply list_elem_of_singleton in Hr as ->. right. exists term.
      split; [left|]. rewrite length_zero in Hlen. simpl. repeat split; [done|lia].
    + right. exists t. split; [by right | done].
Qed.

(** C1.  The claim: a fragment that [indexOf] does not find yields no range
    and leaves the cursor where it was.  The pass does neither.  On the text
    "abab" with the fragments "xyz" and "ab", [indexOf] returns [-1] for
    "xyz"; the pass emits the range from [-1] to [2] for it and moves the
    cursor from [0] to [2], so that "ab" is then located at [2] and not at
    [0], where it is located when "xyz" is left out.  All fragments are
    still processed. *)
Theorem pos_unmatched_fragment_evaluated :
  JS.indexOf "abab" "xyz" 0 = -1 /\
  PoS.run "abab" PoS.init [PoS.Build_Term "xyz" ["Noun"] "" " "] =
    {| PoS.currOffset := 2; PoS.posMarks := [range (-1) 2 (mark "Noun")] |} /\
  PoS.highlight "abab"
    [PoS.Build_Term "xyz" ["Noun"] "" " "; PoS.Build_Term "ab" ["Verb"] "" ""] =
    [range (-1) 2 (mark "Noun"); range 2 4 (mark "Verb")] /\
  PoS.highlight "abab" [PoS.Build_Term "ab" ["Verb"] "" ""] = [range 0 2 (mark "Verb")].
Proof. repeat split; reflexivity. Qed.

(** C3.  When every fragment is non-empty and is found when its turn comes,
    the pass returns one range per fragment, and of any two returned ranges
    the earlier one starts before the later one and they do not overlap. *)
Theorem pos_forward_progress content termsArr :
  Forall (fun term => PoS.text term <> "") termsArr ->
  PoS.all_found content 0 termsArr = true ->
  length (PoS.highlight content termsArr) = length termsArr /\
  forall i j r1 r2, (i < j)%nat ->
    PoS.highlight content termsArr !! i = Some r1 ->
    PoS.highlight content termsArr !! j = Some r2 ->
    from r1 <= from r2 /\ from r1 < from r2 /\
    ~ RangeSet.overlap r1 r2 /\ ~ RangeSet.overlap r2 r1.
Proof.
  intros Hne Hfound. split.
  - unfold PoS.highlight. by rewrite pos_run_length.
  - destruct (pos_run_chain content termsArr PoS.init) as (_ & Hsorted & Hall);
      [simpl; unfold JS.length; lia | constructor | constructor | done |].
    intros i j r1 r2 Hij H1 H2.
    pose proof (StronglySorted_lookup _ _ _ _ _ _ Hsorted Hij H1 H2) as Hb.
    rewrite Forall_forall in Hall.
    pose proof (Hall r1 (list_elem_of_lookup_2 _ _ _ H1)) as V1.
    pose proof (Hall r2 (list_elem_of_lookup_2 _ _ _ H2)) as V2.
    unfold RangeSet.before, RangeSet.overlap in *. lia.
Qed.

Lemma pos_forward_progress_witness :
  length (PoS.highlight "cat cat"
            [PoS.Build_Term "cat" ["Noun"] "" " "; PoS.Build_Term "cat" ["Noun"] "" ""]) = 2%nat /\
  forall i j r1 r2, (i < j)%nat ->
    PoS.highlight "cat cat"
      [PoS.Build_Term "cat" ["Noun"] "" " "; PoS.Build_Term "cat" ["Noun"] "" ""] !! i = Some r1 ->
    PoS.highlight "cat cat"
      [PoS.Build_Term "cat" ["Noun"] "" " "; PoS.Build_Term "cat" ["Noun"] "" ""] !! j = Some r2 ->
    from r1 <= from r2 /\ from r1 < from r2 /\
    ~ RangeSet.overlap r1 r2 /\ ~ RangeSet.overlap r2 r1.
Proof.
  apply (pos_forward_progress "cat cat"
    [PoS.Build_Term "cat" ["Noun"] "" " "; PoS.Build_Term "cat" ["Noun"] "" ""]).
  - repeat constructor; discriminate.
  - reflexivity.
Defined.




(** While every fragment is found the cursor does lie inside the text. *)
Lemma pos_cursor_inside content termsArr :
  PoS.all_found content 0 termsArr = true ->
  0 <= PoS.currOffset (PoS.run content PoS.init termsArr) <= JS.length content.
Proof.
  intros Hfound.
  destruct (pos_run_chain content termsArr PoS.init) as (H & _);
    [simpl; unfold JS.length; lia | constructor | constructor | done | done].
Qed.

(** Fragments that occur in the text in their order are all found: the
    leftmost match never runs past the occurrence the order provides. *)
Lemma in_order_weaken content termsArr cur cur' :
  cur' <= cur -> PoS.in_order content cur termsArr -> PoS.in_order content cur' termsArr.
Proof.
  destruct termsArr as [|term rest]; [done|].
  intros Hle (i & Hi & Hocc & Hrest). exists i. split; [lia | done].
Qed.

Lemma in_order_all_found content termsArr : forall cur,
  PoS.in_order content cur termsArr -> PoS.all_found content cur termsArr = true.
Proof.
  induction termsArr as [|term rest IH]; intros cur; [done|].
  intros (i & Hi & Hocc & Hrest). simpl.
  pose proof (clamp_range content cur) as Hclamp.
  assert (JS.clamp content cur <= i) as Hci.
  { destruct Hocc as (H0 & Hlen & _). unfold JS.clamp, JS.length in *. lia. }
  destruct (indexOf_spec content (PoS.text term) cur) as [[_ Hnone]|(Hlo & _ & Hleft)].
  - by destruct (Hnone i Hci).
  - assert (JS.indexOf content (PoS.text term) cur <= i) as Hle.
    { destruct (Z.le_gt_cases (JS.indexOf content (PoS.text term) cur) i) as [|Hgt]; [done|].
      destruct (Hleft i); [lia | done]. }
    apply andb_true_iff. split.
    + apply negb_true_iff, Z.eqb_neq. lia.
    + apply IH. eapply in_order_weaken; [|exact Hrest]. lia.
Qed.

(** The ranges of a pass in which every fragment is found are ranges of the
    data model. *)
Lemma pos_highlight_valid content termsArr :
  PoS.all_found content 0 termsArr = true ->
  Forall RangeSet.valid (PoS.highlight content termsArr).
Proof.
  intros Hfound.
  destruct (pos_run_chain content termsArr PoS.init) as (_ & _ & Hall);
    [simpl; unfold JS.length; lia | constructor | constructor | done |].
  eapply Forall_impl; [exact Hall|]. unfold RangeSet.valid. simpl; intros; lia.
Qed.

(** C7.  On "cat cat cat" the three fragments "cat" are located at [0,3),
    [4,7) and [8,11); in general a fragment that is found is located at its
    leftmost occurrence at or after the cursor. *)
Theorem pos_repeated_fragments :
  (forall tags1 tags2 tags3,
     PoS.highlight "cat cat cat"
       [PoS.Build_Term "cat" tags1 "" " "; PoS.Build_Term "cat" tags2 "" " ";
        PoS.Build_Term "cat" tags3 "" ""] =
     [range 0 3 (classedMark (map removeBias tags1));
      range 4 7 (classedMark (map removeBias tags2));
      range 8 11 (classedMark (map removeBias tags3))]) /\
  (forall content st term,
     PoS.text term <> "" ->
     0 <= PoS.currOffset st <= JS.length content ->
     JS.indexOf content (PoS.text term) (PoS.currOffset st) <> -1 ->
     exists r,
       PoS.posMarks (PoS.step content st term) = PoS.posMarks st ++ [r] /\
       PoS.currOffset (PoS.step content st term) = to r /\
       to r = from r + JS.length (PoS.text term) /\
       PoS.currOffset st <= from r /\
       JS.occurs_at content (PoS.text term) (from r) /\
       forall j, PoS.currOffset st <= j < from r ->
                 ~ JS.occurs_at content (PoS.text term) j).
Proof.
  split; [reflexivity|].
  intros content st term Hne Hcur Hidx.
  destruct (indexOf_spec content (PoS.text term) (PoS.currOffset st))
    as [[H _]|(Hlo & Hocc & Hleft)]; [done|].
  rewrite clamp_id in Hlo, Hleft by done.
  eexists. unfold PoS.step.
  case_text_length term H0; [by apply length_zero in H0|].
  simpl. do 4 (split; [done|]). split; [exact Hocc | exact Hleft].
Qed.

(** C8.  [removeBias] renames the two gendered name tags and returns any
    other tag as it is; every range of the parts-of-speech pass carries the
    renamed tags of its fragment, joined by spaces. *)
Theorem removeBias_normalizes :
  removeBias "MaleName" = "MasculineName" /\
  removeBias "FemaleName" = "FeminineName" /\
  (forall tag, tag <> "MaleName" -> tag <> "FemaleName" -> removeBias tag = tag) /\
  (forall content termsArr r,
     r ∈ PoS.highlight content termsArr ->
     exists term, term ∈ termsArr /\
       value r = mark (JS.join " " (map removeBias (PoS.tags term)))).
Proof.
  repeat split.
  - intros tag H1 H2. unfold removeBias.
    apply String.eqb_neq in H1, H2. by rewrite H1, H2.
  - intros content termsArr r Hr. unfold PoS.highlight in Hr.
    apply pos_run_classes in Hr as [Hr|(term & Hin & _ & Hv & _)].
    + by apply elem_of_nil in Hr.
    + by exists term.
Qed.

(** ** The sentence pass *)

Lemma slice0_substring s n : JS.slice0 s n = String.substring 0 n s.
Proof.
  unfold JS.slice0. revert s; induction n as [|n IH]; intros [|c s]; simpl; try done.
  by rewrite IH.
Qed.

Lemma markRange_ok d start stop :
  start < stop -> markRange d start stop = Ok (range start stop d).
Proof. unfold markRange. intros H. by destruct (Z.geb_spec start stop); [lia|]. Qed.

Lemma markRange_throw d start stop :
  stop <= start ->
  markRange d start stop = Throw "RangeError: Mark decorations may not be empty".
Proof. unfold markRange. intros H. by destruct (Z.geb_spec start stop); [|lia]. Qed.

Lemma length_pos s : s <> "" -> 0 < JS.length s.
Proof. unfold JS.length. destruct s; [done | simpl; lia]. Qed.

(** In the parts-of-speech pass [range] is called for a non-empty text
    only, and then returns. *)
Lemma pos_range_returns d start text :
  text <> "" ->
  markRange d start (start + JS.length text) = Ok (range start (start + JS.length text) d).
Proof. intros H. apply markRange_ok. pose proof (length_pos _ H). lia. Qed.

Lemma sentences_step_nonempty content st sentence :
  Sentences.text sentence <> "" ->
  Sentences.step content st sentence =
  Ok {| Sentences.currOffset :=
          JS.indexOf content (JS.slice0 (Sentences.text sentence) 5) (Sentences.currOffset st) +
          JS.length (Sentences.text sentence);
        Sentences.sentenceMarks :=
          Sentences.sentenceMarks st ++
          [range (JS.indexOf content (JS.slice0 (Sentences.text sentence) 5)
                    (Sentences.currOffset st))
                 (JS.indexOf content (JS.slice0 (Sentences.text sentence) 5)
                    (Sentences.currOffset st) + JS.length (Sentences.text sentence))
                 (mark "Sentence")] |}.
Proof.
  intros H. unfold Sentences.step. by rewrite pos_range_returns.
Qed.

Lemma sentences_step_empty content st sentence :
  Sentences.text sentence = "" ->
  Sentences.step content st sentence =
  Throw "RangeError: Mark decorations may not be empty".
Proof.
  intros H. unfold Sentences.step. rewrite markRange_throw; [done|].
  rewrite H. unfold JS.length; simpl. lia.
Qed.

Lemma sentences_run_cons content st sentence rest :
  Sentences.run content st (sentence :: rest) =
  match Sentences.step content st sentence with
  | Ok st' => Sentences.run content st' rest
  | Throw e => Throw e
  end.
Proof. done. Qed.

(** The ranges collected so far stay at the front of the result. *)
Lemma sentences_run_app content rest : forall st,
  Sentences.run content st rest =
  match Sentences.run content
          {| Sentences.currOffset := Sentences.currOffset st; Sentences.sentenceMarks := [] |}
          rest with
  | Ok st' =>
      Ok {| Sentences.currOffset := Sentences.currOffset st';
            Sentences.sentenceMarks :=
              Sentences.sentenceMarks st ++ Sentences.sentenceMarks st' |}
  | Throw e => Throw e
  end.
Proof.
  induction rest as [|sentence rest IH]; intros st.
  - destruct st; simpl. by rewrite app_nil_r.
  - rewrite !sentences_run_cons. unfold Sentences.step.
    cbn [Sentences.currOffset Sentences.sentenceMarks].
    destruct (markRange _ _ _) as [r|e]; [|done].
    rewrite IH. rewrite (IH {| Sentences.currOffset := _; Sentences.sentenceMarks := [] ++ [r] |}).
    cbn [Sentences.currOffset Sentences.sentenceMarks].
    destruct (Sentences.run _ _ rest) as [st'|e]; [|done].
    cbn [Sentences.currOffset Sentences.sentenceMarks]. by rewrite <- app_assoc.
Qed.

(** C6.  For a sentence with a non-empty text the sentence pass searches for
    the first five characters of the text from the cursor on; the range it
    adds starts at the index found and ends that index plus the length of the
    whole text, and the pass goes on from that end, whatever the index was.
    On "John ran. Mary ran." with the sentences "John ran." and "Mary ran." it
    yields [0,9) and [10,19).  For an empty text the call of [range] throws. *)
Theorem sentence_pass :
  (forall content st sentence rest,
     Sentences.text sentence <> "" ->
     let start := JS.indexOf content (String.substring 0 5 (Sentences.text sentence))
                    (Sentences.currOffset st) in
     let stop := start + JS.length (Sentences.text sentence) in
     Sentences.step content st sentence =
       Ok {| Sentences.currOffset := stop;
             Sentences.sentenceMarks :=
               Sentences.sentenceMarks st ++ [range start stop (mark "Sentence")] |} /\
     Sentences.run content st (sentence :: rest) =
       Sentences.run content
         {| Sentences.currOffset := stop;
            Sentences.sentenceMarks :=
              Sentences.sentenceMarks st ++ [range start stop (mark "Sentence")] |} rest) /\
  (forall content st sentence,
     Sentences.text sentence = "" ->
     Sentences.step content st sentence =
       Throw "RangeError: Mark decorations may not be empty") /\
  Sentences.highlight "John ran. Mary ran."
    [Sentences.Build_Sentence "John ran."; Sentences.Build_Sentence "Mary ran."] =
    Ok [range 0 9 (mark "Sentence"); range 10 19 (mark "Sentence")].
Proof.
  split; [|split; [apply sentences_step_empty | reflexivity]].
  intros content st sentence rest Hne start stop. subst start stop.
  rewrite sentences_run_cons, sentences_step_nonempty by done.
  by rewrite slice0_substring.
Qed.

Lemma sentence_pass_witness :
  Sentences.step "John ran. Mary ran." Sentences.init (Sentences.Build_Sentence "John ran.") =
    Ok {| Sentences.currOffset := 9;
          Sentences.sentenceMarks := [range 0 9 (mark "Sentence")] |} /\
  Sentences.run "John ran. Mary ran." Sentences.init
    [Sentences.Build_Sentence "John ran."; Sentences.Build_Sentence "Mary ran."] =
    Sentences.run "John ran. Mary ran."
      {| Sentences.currOffset := 9;
         Sentences.sentenceMarks := [range 0 9 (mark "Sentence")] |}
      [Sentences.Build_Sentence "Mary ran."].
Proof.
  exact (proj1 sentence_pass "John ran. Mary ran." Sentences.init
           (Sentences.Build_Sentence "John ran.") [Sentences.Build_Sentence "Mary ran."]
           ltac:(discriminate)).
Defined.

(** ** The aggregate queries *)

Lemma as_bow_fold values w : forall bow : gmap string nat,
  fold_left (fun bow v => <[v := S (default O (bow !! v))]> bow) values bow !! w =
  match length (List.filter (String.eqb w) values) with
  | O => bow !! w
  | S n => Some (S n + default O (bow !! w))%nat
  end.
Proof.
  induction values as [|v values IH]; intros bow; simpl; [done|].
  rewrite IH. destruct (String.eqb_spec w v) as [->|Hne]; simpl.
  - rewrite lookup_insert_eq; simpl.
    destruct (length _); f_equal; lia.
  - by rewrite lookup_insert_ne.
Qed.

Lemma as_set_fold values w : forall set : gset string,
  w ∈ fold_left (fun set v => {[v]} ∪ set) values set <-> w ∈ values \/ w ∈ set.
Proof.
  induction values as [|v values IH]; intros set; simpl.
  - rewrite elem_of_nil. tauto.
  - rewrite IH, elem_of_cons, elem_of_union, elem_of_singleton. tauto.
Qed.

Lemma count_values w items :
  length (List.filter (String.eqb w) (map Wink.its_value (List.filter noStop items))) =
  length (List.filter (fun item => noStop item && String.eqb w (Wink.its_value item)) items).
Proof.
  induction items as [|item items IH]; simpl; [done|].
  destruct (noStop item); simpl; [|done].
  destruct (String.eqb w (Wink.its_value item)); simpl; by rewrite IH.
Qed.

Lemma noStop_spec item :
  noStop item = true <->
  Wink.its_type item = "word" /\ Wink.its_stopWordFlag item = false.
Proof.
  unfold noStop. rewrite andb_true_iff, String.eqb_eq, negb_true_iff. tauto.
Qed.

(** C10.  Both queries return the empty result for [null] and for
    [undefined].  For a document, the bag counts for every word the items of
    type "word" that are not flagged as stop words and have that value, and
    the set holds exactly the values of such items; an item of another type
    or with the stop-word flag contributes to neither. *)
Theorem noStop_queries :
  (forall type,
     getNoStopBoW null type = ∅ /\ getNoStopBoW undefined type = ∅ /\
     getNoStopSet null type = ∅ /\ getNoStopSet undefined type = ∅) /\
  (forall doc type w,
     getNoStopBoW (object doc) type !! w =
       match length (List.filter
                       (fun item => noStop item && String.eqb w (Wink.its_value item))
                       (Wink.collection doc (default Wink.Tokens type))) with
       | O => None
       | S n => Some (S n)
       end) /\
  (forall doc type w,
     is_Some (getNoStopBoW (object doc) type !! w) \/ w ∈ getNoStopSet (object doc) type ->
     exists item, item ∈ Wink.collection doc (default Wink.Tokens type) /\
       Wink.its_value item = w /\ Wink.its_type item = "word" /\
       Wink.its_stopWordFlag item = false) /\
  (forall doc type item,
     item ∈ Wink.collection doc (default Wink.Tokens type) ->
     Wink.its_type item = "word" -> Wink.its_stopWordFlag item = false ->
     is_Some (getNoStopBoW (object doc) type !! Wink.its_value item) /\
     Wink.its_value item ∈ getNoStopSet (object doc) type).
Proof.
  assert (Hbow : forall doc type w,
     getNoStopBoW (object doc) type !! w =
       match length (List.filter
                       (fun item => noStop item && String.eqb w (Wink.its_value item))
                       (Wink.collection doc (default Wink.Tokens type))) with
       | O => None
       | S n => Some (S n)
       end).
  { intros doc type w. unfold getNoStopBoW, Wink.as_bow.
    rewrite as_bow_fold, count_values, lookup_empty; simpl.
    destruct (length _); [done | f_equal; lia]. }
  assert (Hset : forall doc type w,
     w ∈ getNoStopSet (object doc) type <->
     exists item, item ∈ Wink.collection doc (default Wink.Tokens type) /\
       Wink.its_value item = w /\ noStop item = true).
  { intros doc type w. unfold getNoStopSet, Wink.as_set.
    rewrite as_set_fold, list_elem_of_fmap. split.
    - intros [(item & -> & Hin)|Hin]; [|set_solver].
      apply list_elem_of_In, filter_In in Hin as [Hin Hk].
      exists item. by rewrite list_elem_of_In.
    - intros (item & Hin & <- & Hk). left. exists item. split; [done|].
      apply list_elem_of_In, filter_In. by rewrite <- list_elem_of_In. }
  assert (Hcount : forall w items,
     length (List.filter (fun item => noStop item && String.eqb w (Wink.its_value item))
               items) <> O <->
     exists item, item ∈ items /\ Wink.its_value item = w /\ noStop item = true).
  { intros w items. induction items as [|item items IH]; simpl.
    - split; [done|]. intros (? & H & _). by apply elem_of_nil in H.
    - destruct (noStop item) eqn:Hk; simpl.
      + destruct (String.eqb_spec w (Wink.its_value item)) as [->|Hne]; simpl.
        * split; [|done]. intros _. exists item. split; [left | done].
        * rewrite IH. split; intros (x & Hin & Hv & Hx).
          -- exists x. split; [by right | done].
          -- apply elem_of_cons in Hin as [->|Hin]; [done|]. by exists x.
      + rewrite IH. split; intros (x & Hin & Hv & Hx).
        * exists x. split; [by right | done].
        * apply elem_of_cons in Hin as [->|Hin]; [congruence|]. by exists x. }
  repeat split; try done.
  - intros doc type w [Hs|Hs].
    + rewrite Hbow in Hs.
      destruct (Hcount w (Wink.collection doc (default Wink.Tokens type))) as [H _].
      destruct H as (item & Hin & Hv & Hk).
      { intros H0. rewrite H0 in Hs. by destruct Hs. }
      apply noStop_spec in Hk. by exists item.
    + apply Hset in Hs as (item & Hin & Hv & Hk).
      apply noStop_spec in Hk. by exists item.
  - rewrite Hbow.
    destruct (Hcount (Wink.its_value item)
                (Wink.collection doc (default Wink.Tokens type))) as [_ Hc].
    destruct (length _); [|done]. exfalso. apply Hc; [|done].
    exists item. by rewrite noStop_spec.
  - apply Hset. exists item. by rewrite noStop_spec.
Qed.

(** ** The document cache *)

Section DocCacheFacts.

Variable activeFile : Nullable TFile.
Variable cachedRead : TFile -> result string.
Variable readDoc : string -> result Wink.Document.

Lemma TFile_path_inj (f g : TFile) : path f = path g -> f = g.
Proof. destruct f, g; simpl; congruence. Qed.

Lemma refreshLoop_cons file rest docs :
  refreshLoop activeFile cachedRead readDoc (file :: rest) docs =
  match getWinkDocFromFile activeFile cachedRead readDoc (object file) with
  | Ok doc => refreshLoop activeFile cachedRead readDoc rest (<[path file := doc]> docs)
  | Throw e => (docs, Some e)
  end.
Proof. done. Qed.

(** The files that are read and analysed without an exception are written
    to the cache one after the other; the loop then goes on with the rest. *)
Lemma refreshLoop_prefix done : forall docs,
  Forall (fun file => exists doc,
            getWinkDocFromFile activeFile cachedRead readDoc (object file) = Ok doc) done ->
  exists docs',
    (forall rest, refreshLoop activeFile cachedRead readDoc (done ++ rest) docs =
                  refreshLoop activeFile cachedRead readDoc rest docs') /\
    (forall file doc, file ∈ done ->
       getWinkDocFromFile activeFile cachedRead readDoc (object file) = Ok doc ->
       docs' !! path file = Some doc) /\
    (forall p, p ∉ map path done -> docs' !! p = docs !! p).
Proof.
  induction done as [|file done IH]; intros docs Hok.
  - exists docs. split; [done|]. split; [|done].
    intros file doc Hin. by apply elem_of_nil in Hin.
  - apply Forall_cons in Hok as [[doc0 Hdoc0] Hok].
    destruct (IH (<[path file := doc0]> docs) Hok) as (docs' & Hloop & Hin & Hout).
    exists docs'. split; [|split].
    + intros rest. rewrite <- app_comm_cons, refreshLoop_cons, Hdoc0. apply Hloop.
    + intros f doc Hf Hdoc. apply elem_of_cons in Hf as [->|Hf]; [|by apply Hin].
      destruct (decide (path file ∈ map path done)) as [Hdup|Hfresh].
      * apply list_elem_of_fmap in Hdup as (g & Hpath & Hg).
        apply TFile_path_inj in Hpath as ->. by apply Hin.
      * rewrite Hout, lookup_insert_eq by done. congruence.
    + intros p Hp. simpl in Hp. apply not_elem_of_cons in Hp as [Hne Hp].
      rewrite Hout by done. by rewrite lookup_insert_ne.
Qed.

End DocCacheFacts.

(** C2, against the claim as stated: in scenario E the third path loads and
    analyses without an exception, yet the cache has no entry for it after
    the refresh; the loop has stopped at the second path. *)
Lemma refresh_stops_at_first_failure :
  getWinkDocFromFile null scenarioE_cachedRead scenarioE_readDoc (object {| path := "3.md" |}) =
    Ok (object scenarioE_doc) /\
  Docs (refreshDocs null scenarioE_cachedRead scenarioE_readDoc scenarioE_files ∅) !! "1.md" =
    Some (object scenarioE_doc) /\
  Docs (refreshDocs null scenarioE_cachedRead scenarioE_readDoc scenarioE_files ∅) !! "3.md" = None.
Proof. repeat split; reflexivity. Qed.

(** C2, amended.  When the load or the analysis of one file fails and the
    files before it do not, every file before the failing one is in the cache
    afterwards with its fresh document, every other path has the entry it had
    before the refresh, and the failure is reported once: the notice shows
    the error message after its first message, and the exception is logged
    before the line of the timer. *)
Theorem refresh_partial activeFile cachedRead readDoc done bad rest docs e :
  Forall (fun file => exists doc,
            getWinkDocFromFile activeFile cachedRead readDoc (object file) = Ok doc) done ->
  getWinkDocFromFile activeFile cachedRead readDoc (object bad) = Throw e ->
  (forall file doc, file ∈ done ->
     getWinkDocFromFile activeFile cachedRead readDoc (object file) = Ok doc ->
     Docs (refreshDocs activeFile cachedRead readDoc (done ++ bad :: rest) docs) !! path file =
       Some doc) /\
  (forall p, p ∉ map path done ->
     Docs (refreshDocs activeFile cachedRead readDoc (done ++ bad :: rest) docs) !! p = docs !! p) /\
  notice (refreshDocs activeFile cachedRead readDoc (done ++ bad :: rest) docs) =
    ["Refreshing docs..."; "An error occured, check the console for more information."] /\
  console (refreshDocs activeFile cachedRead readDoc (done ++ bad :: rest) docs) =
    [logged e; timeEnd "refreshDocs"].
Proof.
  intros Hok Hbad.
  destruct (refreshLoop_prefix activeFile cachedRead readDoc done docs Hok) as (docs' & Hloop & Hin & Hout).
  unfold refreshDocs. rewrite Hloop, refreshLoop_cons, Hbad. simpl. done.
Qed.

Lemma refresh_partial_witness :
  (forall file doc, file ∈ [ {| path := "1.md" |} ] ->
     getWinkDocFromFile null scenarioE_cachedRead scenarioE_readDoc (object file) = Ok doc ->
     Docs (refreshDocs null scenarioE_cachedRead scenarioE_readDoc
             ([ {| path := "1.md" |} ] ++ {| path := "2.md" |} :: [ {| path := "3.md" |} ]) ∅)
       !! path file = Some doc) /\
  (forall p, p ∉ map path [ {| path := "1.md" |} ] ->
     Docs (refreshDocs null scenarioE_cachedRead scenarioE_readDoc
             ([ {| path := "1.md" |} ] ++ {| path := "2.md" |} :: [ {| path := "3.md" |} ]) ∅)
       !! p = (∅ : gmap string (Nullable Wink.Document)) !! p) /\
  notice (refreshDocs null scenarioE_cachedRead scenarioE_readDoc
            ([ {| path := "1.md" |} ] ++ {| path := "2.md" |} :: [ {| path := "3.md" |} ]) ∅) =
    ["Refreshing docs..."; "An error occured, check the console for more information."] /\
  console (refreshDocs null scenarioE_cachedRead scenarioE_readDoc
             ([ {| path := "1.md" |} ] ++ {| path := "2.md" |} :: [ {| path := "3.md" |} ]) ∅) =
    [logged "read failed"; timeEnd "refreshDocs"].
Proof.
  apply (refresh_partial null scenarioE_cachedRead scenarioE_readDoc
           [ {| path := "1.md" |} ] {| path := "2.md" |} [ {| path := "3.md" |} ] ∅
           "read failed").
  - repeat constructor. exists (object scenarioE_doc). reflexivity.
  - reflexivity.
Defined.

(** When no file fails, every file is in the cache and the notice reports
    success. *)
Lemma refresh_complete activeFile cachedRead readDoc files docs :
  Forall (fun file => exists doc,
            getWinkDocFromFile activeFile cachedRead readDoc (object file) = Ok doc) files ->
  (forall file doc, file ∈ files ->
     getWinkDocFromFile activeFile cachedRead readDoc (object file) = Ok doc ->
     Docs (refreshDocs activeFile cachedRead readDoc files docs) !! path file = Some doc) /\
  notice (refreshDocs activeFile cachedRead readDoc files docs) =
    ["Refreshing docs..."; "Docs Refreshed"].
Proof.
  intros Hok.
  destruct (refreshLoop_prefix activeFile cachedRead readDoc files docs Hok) as (docs' & Hloop & Hin & _).
  unfold refreshDocs. specialize (Hloop []). rewrite app_nil_r in Hloop.
  rewrite Hloop. simpl. done.
Qed.

(** ** Start-up *)

Lemma addCommands_nil p : addCommands [] p = p.
Proof. destruct p; unfold addCommands; simpl. by rewrite app_nil_r. Qed.

Lemma addCommands_app cs1 cs2 p :
  addCommands cs2 (addCommands cs1 p) = addCommands (cs1 ++ cs2) p.
Proof. unfold addCommands; simpl. by rewrite app_assoc. Qed.

Lemma addCommand_spec c p : addCommand c p = (addCommands [c] p, Ok tt).
Proof. done. Qed.

Lemma bind_ok {A B} (m : M A) (k : A -> M B) p p' a :
  m p = (p', Ok a) -> bind m k p = k a p'.
Proof. unfold bind. by intros ->. Qed.

Lemma bind_throw {A B} (m : M A) (k : A -> M B) p p' e :
  m p = (p', Throw e) -> bind m k p = (p', Throw e).
Proof. unfold bind. by intros ->. Qed.

Lemma forEach_addCommand {A} (g : A -> Command) l : forall p,
  forEach l (fun a => addCommand (g a)) p = (addCommands (map g l) p, Ok tt).
Proof.
  induction l as [|a l IH]; intros p; simpl.
  - by rewrite addCommands_nil.
  - erewrite bind_ok by apply addCommand_spec. rewrite IH. by rewrite addCommands_app.
Qed.

Lemma forEach_nested {A B} (g : A -> B -> Command) (h : A -> list B) l : forall p,
  forEach l (fun a => forEach (h a) (fun b => addCommand (g a b))) p =
  (addCommands (concat (map (fun a => map (g a) (h a)) l)) p, Ok tt).
Proof.
  induction l as [|a l IH]; intros p; simpl.
  - by rewrite addCommands_nil.
  - erewrite bind_ok by apply forEach_addCommand. rewrite IH. by rewrite addCommands_app.
Qed.

Section OnloadFacts.

Variable settings : Settings.
Variable read : string -> result string.
Variable normalizePath : string -> string.
Variable JSON_parse : string -> result (list CustomEntityExample).
Variable learn : list CustomEntityExample -> result unit.
Variable TEXT_MANIPULATION_CMDS : list (string * list string).
Variable ENTITIES : list string.

(** The registrations never throw: they add the commands and the field. *)
Lemma registerAll_spec p :
  exists p',
    registerAll settings TEXT_MANIPULATION_CMDS ENTITIES p = (p', Ok tt) /\
    commands p' = commands p ++ allCommands TEXT_MANIPULATION_CMDS ENTITIES /\
    editorExtensions p' = editorExtensions p ++ [StateField "markField"] /\
    learnedEntities p' = learnedEntities p /\
    settingTabs p' = settingTabs p.
Proof.
  unfold registerAll.
  erewrite bind_ok by apply forEach_addCommand.
  erewrite bind_ok by apply addCommand_spec.
  erewrite bind_ok by reflexivity.
  erewrite bind_ok by apply addCommand_spec.
  erewrite bind_ok by apply addCommand_spec.
  erewrite bind_ok
    by apply (forEach_nested (fun entry => manipulationCommand (fst entry)) snd
                TEXT_MANIPULATION_CMDS).
  erewrite bind_ok by apply forEach_addCommand.
  unfold allCommands.
  destruct (refreshDocsOnLoad settings); eexists; (split; [reflexivity|]); simpl;
    rewrite <- !app_assoc; done.
Qed.

Lemma loadCustomEntities_none p :
  customEntityFilePath settings = "" ->
  loadCustomEntities settings read normalizePath JSON_parse learn p = (p, Ok tt).
Proof. unfold loadCustomEntities. by intros ->. Qed.

Lemma loadCustomEntities_throw p e :
  customEntityFilePath settings <> "" ->
  read (normalizePath (customEntityFilePath settings)) = Throw e \/
  (exists str, read (normalizePath (customEntityFilePath settings)) = Ok str /\
               JSON_parse str = Throw e) ->
  loadCustomEntities settings read normalizePath JSON_parse learn p = (p, Throw e).
Proof.
  intros Hpath Hfail. unfold loadCustomEntities.
  apply String.eqb_neq in Hpath. rewrite Hpath.
  destruct Hfail as [Hread|(str & Hread & Hparse)].
  - apply bind_throw. unfold lift. by rewrite Hread.
  - erewrite bind_ok by (unfold lift; by rewrite Hread).
    apply bind_throw. unfold lift. by rewrite Hparse.
Qed.

End OnloadFacts.

(** C4, against the claim as stated: with a custom-entity file configured
    that cannot be read, [onload] ends with the exception after the setting
    tab; no command and no editor extension has been registered.  The same
    happens when the file is read and [JSON.parse] throws. *)
Lemma onload_stops_at_config_failure :
  onload {| customEntityFilePath := "entities.json"; refreshDocsOnLoad := false |}
         (fun _ => Throw "ENOENT") (fun p => p) (fun _ => Ok []) (fun _ => Ok tt)
         [("nouns", ["toPlural"])] ["people"] unloaded =
    ({| settingTabs := 1; learnedEntities := None; commands := [];
        editorExtensions := []; layoutReadyCallbacks := 0 |}, Throw "ENOENT") /\
  onload {| customEntityFilePath := "entities.json"; refreshDocsOnLoad := false |}
         (fun _ => Ok "{") (fun p => p) (fun _ => Throw "SyntaxError") (fun _ => Ok tt)
         [("nouns", ["toPlural"])] ["people"] unloaded =
    ({| settingTabs := 1; learnedEntities := None; commands := [];
        editorExtensions := []; layoutReadyCallbacks := 0 |}, Throw "SyntaxError").
Proof. split; reflexivity. Qed.

(** C4, amended.  When no custom-entity file is configured, [onload]
    finishes without custom entities, with all commands and the editor
    extension registered.  When a file is configured and reading it or
    parsing it throws, [onload] ends with that exception, and no command and
    no editor extension is registered. *)
Theorem onload_custom_entities settings read normalizePath JSON_parse learn
    TEXT_MANIPULATION_CMDS ENTITIES :
  (customEntityFilePath settings = "" ->
   exists p,
     onload settings read normalizePath JSON_parse learn TEXT_MANIPULATION_CMDS ENTITIES unloaded =
       (p, Ok tt) /\
     learnedEntities p = None /\
     commands p = allCommands TEXT_MANIPULATION_CMDS ENTITIES /\
     editorExtensions p = [StateField "markField"]) /\
  (forall e,
   customEntityFilePath settings <> "" ->
   read (normalizePath (customEntityFilePath settings)) = Throw e \/
   (exists str, read (normalizePath (customEntityFilePath settings)) = Ok str /\
                JSON_parse str = Throw e) ->
   exists p,
     onload settings read normalizePath JSON_parse learn TEXT_MANIPULATION_CMDS ENTITIES unloaded =
       (p, Throw e) /\
     learnedEntities p = None /\ commands p = [] /\ editorExtensions p = []).
Proof.
  split.
  - intros Hpath. unfold onload.
    erewrite bind_ok by reflexivity.
    erewrite bind_ok by by apply loadCustomEntities_none.
    destruct (registerAll_spec settings TEXT_MANIPULATION_CMDS ENTITIES
                (addSettingTab unloaded).1) as (p & Hp & Hc & He & Hl & _).
    exists p. split; [exact Hp|]. by rewrite Hc, He, Hl.
  - intros e Hpath Hfail. unfold onload.
    erewrite bind_ok by reflexivity.
    erewrite bind_throw by by apply loadCustomEntities_throw.
    eexists. split; [reflexivity|]. done.
Qed.

Lemma onload_custom_entities_witness :
  exists p,
    onload {| customEntityFilePath := "entities.json"; refreshDocsOnLoad := true |}
           (fun _ => Ok "{") (fun p => p) (fun _ => Throw "SyntaxError") (fun _ => Ok tt)
           [("nouns", ["toPlural"])] ["people"] unloaded = (p, Throw "SyntaxError") /\
    learnedEntities p = None /\ commands p = [] /\ editorExtensions p = [].
Proof.
  apply (proj2 (onload_custom_entities
                  {| customEntityFilePath := "entities.json"; refreshDocsOnLoad := true |}
                  (fun _ => Ok "{") (fun p => p) (fun _ => Throw "SyntaxError")
                  (fun _ => Ok tt) [("nouns", ["toPlural"])] ["people"])).
  - discriminate.
  - right. exists "{". split; reflexivity.
Defined.

(** ** The range set *)

Lemma elem_of_insert r y set : y ∈ RangeSet.insert r set <-> y = r \/ y ∈ set.
Proof.
  induction set as [|x set IH]; simpl.
  - rewrite list_elem_of_singleton, elem_of_nil. tauto.
  - destruct (from r <? from x); rewrite !elem_of_cons; [tauto|].
    rewrite IH. tauto.
Qed.

Lemma insert_sorted r set : RangeSet.sorted set -> RangeSet.sorted (RangeSet.insert r set).
Proof.
  unfold RangeSet.sorted. induction 1 as [|x set Hs IH Hx]; simpl.
  - repeat constructor.
  - destruct (Z.ltb_spec (from r) (from x)) as [Hlt|Hge].
    + constructor; [by constructor|]. constructor; [lia|].
      eapply Forall_impl; [exact Hx|]. simpl; intros; lia.
    + constructor; [done|]. apply Forall_forall. intros y Hy.
      apply elem_of_insert in Hy as [->|Hy]; [lia|].
      rewrite Forall_forall in Hx. by apply Hx.
Qed.

Lemma insert_valid r set :
  RangeSet.valid r -> Forall RangeSet.valid set -> Forall RangeSet.valid (RangeSet.insert r set).
Proof.
  intros Hr Hset. apply Forall_forall. intros y Hy.
  apply elem_of_insert in Hy as [->|Hy]; [done|].
  rewrite Forall_forall in Hset. by apply Hset.
Qed.

Lemma addAll_invariant ranges : forall set,
  Forall RangeSet.valid ranges -> RangeSet.invariant set ->
  RangeSet.invariant (RangeSet.addAll ranges set).
Proof.
  unfold RangeSet.addAll.
  induction ranges as [|r ranges IH]; intros set Hranges [Hs Hv]; simpl; [done|].
  apply Forall_cons in Hranges as [Hr Hranges].
  apply IH; [done|]. split; [by apply insert_sorted | by apply insert_valid].
Qed.

Lemma filter_invariant predicate set :
  RangeSet.invariant set -> RangeSet.invariant (RangeSet.filter predicate set).
Proof.
  unfold RangeSet.filter. intros [Hs Hv]. split.
  - unfold RangeSet.sorted in *. induction Hs as [|x set Hs IH Hx]; simpl; [constructor|].
    apply Forall_cons in Hv as [_ Hv]. destruct (predicate x); [|by apply IH].
    constructor; [by apply IH|].
    apply Forall_forall. intros y Hy. apply list_elem_of_In, filter_In in Hy as [Hy _].
    rewrite Forall_forall in Hx. by apply Hx, list_elem_of_In.
  - apply Forall_forall. intros y Hy. apply list_elem_of_In, filter_In in Hy as [Hy _].
    rewrite Forall_forall in Hv. by apply Hv, list_elem_of_In.
Qed.

(** A well-formed change keeps a valid range valid, and keeps the order of
    the starts of any two valid ranges it does not drop. *)
Lemma mapRange_valid c r r' :
  0 <= Change.from c <= Change.to c -> 0 <= Change.insertedLength c ->
  RangeSet.valid r -> RangeSet.mapRange c r = Some r' -> RangeSet.valid r'.
Proof.
  unfold RangeSet.mapRange, RangeSet.valid, Change.delta. intros Hc Hi Hr.
  destruct (Z.leb_spec (to r) (Change.from c)); [by intros [= <-]|].
  destruct (Z.leb_spec (Change.to c) (from r)); [|done].
  intros [= <-]; simpl. lia.
Qed.

Lemma mapRange_mono c a b a' b' :
  0 <= Change.from c <= Change.to c -> 0 <= Change.insertedLength c ->
  RangeSet.valid a -> RangeSet.valid b -> from a <= from b ->
  RangeSet.mapRange c a = Some a' -> RangeSet.mapRange c b = Some b' ->
  from a' <= from b'.
Proof.
  unfold RangeSet.mapRange, RangeSet.valid, Change.delta. intros Hc Hi Ha Hb Hab.
  destruct (Z.leb_spec (to a) (Change.from c));
    destruct (Z.leb_spec (to b) (Change.from c));
    destruct (Z.leb_spec (Change.to c) (from a));
    destruct (Z.leb_spec (Change.to c) (from b));
    intros Ha' Hb'; simplify_eq; simpl; lia.
Qed.

Lemma mapThroughChange_invariant c set :
  0 <= Change.from c <= Change.to c -> 0 <= Change.insertedLength c ->
  RangeSet.invariant set -> RangeSet.invariant (RangeSet.mapThroughChange c set).
Proof.
  unfold RangeSet.mapThroughChange. intros Hc Hi [Hs Hv]. split.
  - unfold RangeSet.sorted in *. induction Hs as [|x set Hs IH Hx]; simpl; [constructor|].
    apply Forall_cons in Hv as [Hvx Hv].
    destruct (RangeSet.mapRange c x) as [x'|] eqn:Ex; [|by apply IH].
    constructor; [by apply IH|].
    apply Forall_forall. intros y' Hy'.
    apply list_elem_of_omap in Hy' as (y & Hy & Ey).
    rewrite Forall_forall in Hx, Hv.
    eapply (mapRange_mono c x y); eauto.
  - apply Forall_forall. intros y' Hy'.
    apply list_elem_of_omap in Hy' as (y & Hy & Ey).
    rewrite Forall_forall in Hv. eapply mapRange_valid; eauto.
Qed.

Lemma mapThroughChanges_invariant changes : forall lo shift set,
  0 <= lo + shift -> RangeSet.wf_changes lo changes ->
  RangeSet.invariant set ->
  RangeSet.invariant (RangeSet.mapThroughChanges shift changes set).
Proof.
  induction changes as [|c changes IH]; intros lo shift set Hlo Hwf Hinv; simpl; [done|].
  destruct Hwf as (Hfrom & Hto & Hins & Hrest).
  apply (IH (Change.to c)); [unfold Change.delta; lia | done |].
  apply mapThroughChange_invariant; [simpl; lia | done | done].
Qed.

Lemma apply_invariant value effect :
  markField.wf_effect effect -> RangeSet.invariant value ->
  RangeSet.invariant (markField.apply value effect).
Proof.
  destruct effect as [v|v|]; simpl; intros Hwf Hinv.
  - by apply addAll_invariant.
  - by apply filter_invariant.
  - done.
Qed.

Lemma update_invariant value tr :
  markField.wf_transaction tr -> RangeSet.invariant value ->
  RangeSet.invariant (markField.update value tr).
Proof.
  intros [Hch Heff] Hinv. unfold markField.update.
  assert (RangeSet.invariant (RangeSet.mapThroughChanges 0 (changes tr) value)) as Hmapped
    by (by apply (mapThroughChanges_invariant _ 0)).
  revert Hmapped. generalize (RangeSet.mapThroughChanges 0 (changes tr) value).
  induction Heff as [|e effs He Heffs IH]; intros v Hv; simpl; [done|].
  apply IH. by apply apply_invariant.
Qed.

(** C9.  Starting from the empty set of decorations, after any sequence of
    transactions (each maps the set through its changes, then adds and
    filters as its effects say) the ranges of the field are in ascending
    order of their start and each satisfies [0 <= start < end]; the added
    ranges are ranges of the data model and the changes are changes of one
    edit. *)
Theorem markField_invariant (trs : list Transaction) :
  Forall markField.wf_transaction trs ->
  RangeSet.sorted (fold_left markField.update trs markField.create) /\
  Forall (fun r => 0 <= from r < to r) (fold_left markField.update trs markField.create).
Proof.
  intros Hwf.
  assert (RangeSet.invariant markField.create) as Hinit
    by (split; constructor).
  revert Hinit. generalize markField.create.
  induction Hwf as [|tr trs Htr Htrs IH]; intros v Hv; simpl; [done|].
  apply IH. by apply update_invariant.
Qed.

Lemma markField_invariant_witness :
  RangeSet.sorted
    (fold_left markField.update
       [ {| changes := [];
            effects := [addMarks [range 10 15 (mark "Noun"); range 6 9 (mark "Verb")]] |};
         {| changes := [ {| Change.from := 5; Change.to := 8; Change.insertedLength := 2 |} ];
            effects := [filterMarks (fun r => String.eqb (class (value r)) "Noun")] |} ]
       markField.create) /\
  Forall (fun r => 0 <= from r < to r)
    (fold_left markField.update
       [ {| changes := [];
            effects := [addMarks [range 10 15 (mark "Noun"); range 6 9 (mark "Verb")]] |};
         {| changes := [ {| Change.from := 5; Change.to := 8; Change.insertedLength := 2 |} ];
            effects := [filterMarks (fun r => String.eqb (class (value r)) "Noun")] |} ]
       markField.create).
Proof.
  apply (markField_invariant
    [ {| changes := [];
         effects := [addMarks [range 10 15 (mark "Noun"); range 6 9 (mark "Verb")]] |};
      {| changes := [ {| Change.from := 5; Change.to := 8; Change.insertedLength := 2 |} ];
         effects := [filterMarks (fun r => String.eqb (class (value r)) "Noun")] |} ]).
  repeat constructor; simpl; unfold RangeSet.valid; simpl; lia.
Defined.

(** The transaction of a parts-of-speech pass in which every fragment is
    found is such a transaction; the one of the pass on "abab" with the
    unmatched fragment "xyz" is not, its first range starts at [-1]. *)
Lemma pos_dispatch_wf content termsArr :
  PoS.all_found content 0 termsArr = true ->
  markField.wf_transaction (dispatchMarks (PoS.highlight content termsArr)).
Proof.
  intros Hfound. split; [done|]. repeat constructor. by apply pos_highlight_valid.
Qed.

Lemma pos_dispatch_unmatched :
  ~ markField.wf_transaction
      (dispatchMarks
         (PoS.highlight "abab"
            [PoS.Build_Term "xyz" ["Noun"] "" " "; PoS.Build_Term "ab" ["Verb"] "" ""])).
Proof.
  intros [_ Heff]. apply Forall_cons in Heff as [Hadd _].
  apply Forall_cons in Hadd as [Hvalid _].
  destruct Hvalid as [Hstart _]. vm_compute in Hstart. by apply Hstart.
Qed.

(** Scenario D of the range set: the change deletes [5,8) and inserts two
    characters; the range [10,15) moves to [9,14), the range [6,9) goes. *)
Example scenarioD :
  RangeSet.mapThroughChange
    {| Change.from := 5; Change.to := 8; Change.insertedLength := 2 |}
    [range 6 9 (mark "Verb"); range 10 15 (mark "Noun")] =
  [range 9 14 (mark "Noun")].
Proof. reflexivity. Qed.

(** * Further properties of the code *)

(** ** The parts-of-speech command *)

Lemma truthy_length s : JS.truthy (JS.length s) = negb (String.eqb s "").
Proof. by destruct s. Qed.

Lemma substring_drop n m s : String.substring n m s = String.substring 0 m (JS.drop n s).
Proof.
  revert s; induction n as [|n IH]; intros s; [done|].
  destruct s as [|c s]; [by destruct m | apply IH].
Qed.

Lemma occurs_at_substring s t i :
  JS.occurs_at s t i -> String.substring (Z.to_nat i) (String.length t) s = t.
Proof.
  intros (_ & _ & Hp). rewrite substring_drop. by apply String.prefix_correct.
Qed.

Lemma posMarksFrom_cons content cur term rest :
  posMarksFrom content cur (term :: rest) =
  (if JS.truthy (JS.length (PoS.text term)) then
     [range (JS.indexOf content (PoS.text term) cur)
            (JS.indexOf content (PoS.text term) cur + JS.length (PoS.text term))
            (classedMark (map removeBias (PoS.tags term)))]
   else []) ++
  posMarksFrom content (JS.indexOf content (PoS.text term) cur + JS.length (PoS.text term)) rest.
Proof.
  unfold posMarksFrom. rewrite pos_run_cons, pos_run_app. unfold PoS.step; simpl.
  by destruct (JS.truthy _).
Qed.

Lemma nonempty_truthy s : s <> "" -> JS.truthy (JS.length s) = true.
Proof. rewrite truthy_length. by destruct s. Qed.

Lemma posMarksFrom_text content termsArr : forall cur,
  0 <= cur <= JS.length content ->
  Forall (fun term => PoS.text term <> "") termsArr ->
  PoS.all_found content cur termsArr = true ->
  forall i term r,
    termsArr !! i = Some term ->
    posMarksFrom content cur termsArr !! i = Some r ->
    cur <= from r /\ to r <= JS.length content /\
    to r = from r + JS.length (PoS.text term) /\
    String.substring (Z.to_nat (from r)) (String.length (PoS.text term)) content =
      PoS.text term /\
    value r = classedMark (map removeBias (PoS.tags term)).
Proof.
  induction termsArr as [|t rest IH]; intros cur Hcur Hne Hfound i term r Hi Hr.
  - done.
  - apply Forall_cons in Hne as [Ht Hrest].
    simpl in Hfound. apply andb_true_iff in Hfound as [Hidx Hfound].
    apply negb_true_iff, Z.eqb_neq in Hidx.
    destruct (indexOf_spec content (PoS.text t) cur) as [[H _]|(Hlo & Hocc & _)]; [done|].
    rewrite clamp_id in Hlo by done.
    pose proof Hocc as (_ & Hhi & _).
    assert (0 <= JS.length (PoS.text t)) by (unfold JS.length; lia).
    rewrite posMarksFrom_cons, nonempty_truthy in Hr by done.
    destruct i as [|i]; simpl in Hi, Hr.
    + injection Hi as <-. injection Hr as <-. simpl.
      repeat split; try lia. by apply occurs_at_substring.
    + destruct (IH (JS.indexOf content (PoS.text t) cur + JS.length (PoS.text t))
                  ltac:(lia) Hrest Hfound i term r Hi Hr) as (H1 & H2).
      split; [lia | done].
Qed.

(** X1.  When every fragment is non-empty and found, the range of the
    [i]-th fragment lies inside the text, has the length of the fragment,
    covers exactly the fragment's text, and carries its normalised tags. *)
Theorem pos_highlight_text content termsArr :
  Forall (fun term => PoS.text term <> "") termsArr ->
  PoS.all_found content 0 termsArr = true ->
  forall i term r,
    termsArr !! i = Some term ->
    PoS.highlight content termsArr !! i = Some r ->
    0 <= from r /\ to r <= JS.length content /\
    to r = from r + JS.length (PoS.text term) /\
    String.substring (Z.to_nat (from r)) (String.length (PoS.text term)) content =
      PoS.text term /\
    value r = classedMark (map removeBias (PoS.tags term)).
Proof.
  intros Hne Hfound i term r Hi Hr.
  apply (posMarksFrom_text content termsArr 0) with (i := i); try done.
  unfold JS.length; lia.
Qed.

Lemma pos_highlight_text_witness :
  0 <= from (range 4 7 (mark "Verb")) /\
  to (range 4 7 (mark "Verb")) <= JS.length "cat sat" /\
  to (range 4 7 (mark "Verb")) =
    from (range 4 7 (mark "Verb")) + JS.length (PoS.text (PoS.Build_Term "sat" ["Verb"] "" "")) /\
  String.substring (Z.to_nat (from (range 4 7 (mark "Verb"))))
    (String.length (PoS.text (PoS.Build_Term "sat" ["Verb"] "" ""))) "cat sat" =
    PoS.text (PoS.Build_Term "sat" ["Verb"] "" "") /\
  value (range 4 7 (mark "Verb")) =
    classedMark (map removeBias (PoS.tags (PoS.Build_Term "sat" ["Verb"] "" ""))).
Proof.
  apply (pos_highlight_text "cat sat"
    [PoS.Build_Term "cat" ["Noun"] "" " "; PoS.Build_Term "sat" ["Verb"] "" ""]
    ltac:(repeat constructor; discriminate) eq_refl 1%nat
    (PoS.Build_Term "sat" ["Verb"] "" "") (range 4 7 (mark "Verb")) eq_refl eq_refl).
Defined.

(** X2.  Fragments that occur in the text one after the other are all
    found, and every range of the pass then lies inside the text. *)
Theorem pos_in_order_found content termsArr :
  PoS.in_order content 0 termsArr ->
  PoS.all_found content 0 termsArr = true /\
  Forall (fun r => 0 <= from r /\ from r < to r /\ to r <= JS.length content)
         (PoS.highlight content termsArr).
Proof.
  intros Hord. pose proof (in_order_all_found _ _ _ Hord) as Hfound.
  split; [done|].
  destruct (pos_run_chain content termsArr PoS.init) as (Hcur & _ & Hall);
    [simpl; unfold JS.length; lia | constructor | constructor | done |].
  eapply Forall_impl; [exact Hall|]. simpl. intros r Hr. lia.
Qed.

Lemma pos_in_order_found_witness :
  PoS.all_found "the cat" 0
    [PoS.Build_Term "the" [] "" " "; PoS.Build_Term "cat" [] "" ""] = true /\
  Forall (fun r => 0 <= from r /\ from r < to r /\ to r <= JS.length "the cat")
         (PoS.highlight "the cat"
            [PoS.Build_Term "the" [] "" " "; PoS.Build_Term "cat" [] "" ""]).
Proof.
  apply (pos_in_order_found "the cat"
    [PoS.Build_Term "the" [] "" " "; PoS.Build_Term "cat" [] "" ""]).
  exists 0. split; [lia|]. split.
  { unfold JS.occurs_at, JS.length; simpl. repeat split; try lia. }
  exists 4. split; [unfold JS.length; simpl; lia|]. split; [|exact I].
  unfold JS.occurs_at, JS.length; simpl. repeat split; try lia.
Defined.

(** X3.  The pass returns one range for each fragment with a non-empty
    text, found or not, and none for the others. *)
Theorem pos_range_count content termsArr :
  length (PoS.highlight content termsArr) =
  length (List.filter (fun term => negb (String.eqb (PoS.text term) "")) termsArr).
Proof.
  change (PoS.highlight content termsArr) with (posMarksFrom content 0 termsArr).
  generalize 0 as cur.
  induction termsArr as [|term rest IH]; intros cur; [done|].
  rewrite posMarksFrom_cons, length_app, IH, truthy_length. simpl.
  by destruct (negb _).
Qed.

(** X4.  The ranges of the first sentences do not depend on the sentences
    after them: the pass over all sentences returns the ranges of the pass
    over the first ones, followed by those of the rest located from the cursor
    the first ones have left. *)
Theorem pos_highlight_app content json1 json2 :
  PoS.highlight content (termsArr (json1 ++ json2)) =
  PoS.highlight content (termsArr json1) ++
  posMarksFrom content
    (PoS.currOffset (PoS.run content PoS.init (termsArr json1))) (termsArr json2).
Proof.
  unfold termsArr, PoS.highlight, posMarksFrom, PoS.run.
  rewrite map_app, concat_app, fold_left_app.
  apply pos_run_app.
Qed.

Lemma posMarksFrom_found content termsArr : forall cur,
  Forall (fun term => PoS.text term <> "") termsArr ->
  PoS.all_found content cur termsArr = true <->
  Forall (fun r => from r <> -1) (posMarksFrom content cur termsArr).
Proof.
  induction termsArr as [|term rest IH]; intros cur Hne.
  - split; [constructor | done].
  - apply Forall_cons in Hne as [Hterm Hrest].
    rewrite posMarksFrom_cons, nonempty_truthy by done. simpl.
    rewrite Forall_cons, andb_true_iff, negb_true_iff, Z.eqb_neq, (IH _ Hrest). done.
Qed.

(** X5.  With non-empty fragments, a range of the pass starts at [-1]
    exactly when a fragment was not found. *)
Theorem pos_found_iff content termsArr :
  Forall (fun term => PoS.text term <> "") termsArr ->
  PoS.all_found content 0 termsArr = true <->
  Forall (fun r => from r <> -1) (PoS.highlight content termsArr).
Proof. apply posMarksFrom_found. Qed.

Lemma pos_found_iff_witness :
  PoS.all_found "abab" 0
    [PoS.Build_Term "xyz" ["Noun"] "" " "; PoS.Build_Term "ab" ["Verb"] "" ""] = true <->
  Forall (fun r => from r <> -1)
    (PoS.highlight "abab"
       [PoS.Build_Term "xyz" ["Noun"] "" " "; PoS.Build_Term "ab" ["Verb"] "" ""]).
Proof.
  apply (pos_found_iff "abab"
    [PoS.Build_Term "xyz" ["Noun"] "" " "; PoS.Build_Term "ab" ["Verb"] "" ""]).
  repeat constructor; discriminate.
Defined.

(** X6.  [removeBias] is idempotent and never returns one of the two
    gendered name tags. *)
Theorem removeBias_idempotent tag :
  removeBias (removeBias tag) = removeBias tag /\
  removeBias tag <> "MaleName" /\ removeBias tag <> "FemaleName".
Proof.
  unfold removeBias.
  destruct (String.eqb_spec tag "MaleName") as [->|H1]; [done|].
  destruct (String.eqb_spec tag "FemaleName") as [->|H2]; [done|].
  apply String.eqb_neq in H1 as E1. apply String.eqb_neq in H2 as E2.
  by rewrite E1, E2.
Qed.

(** ** The sentence command *)

Lemma length_take n s : String.length (JS.take n s) = Nat.min n (String.length s).
Proof.
  revert s; induction n as [|n IH]; intros [|c s]; simpl; try done.
  by rewrite IH.
Qed.

Lemma take_all n s : (String.length s <= n)%nat -> JS.take n s = s.
Proof.
  revert s; induction n as [|n IH]; intros [|c s]; simpl; try done; try lia.
  intros H. rewrite IH; [done | lia].
Qed.

Lemma sentenceMarksFrom_cons content cur sentence rest :
  Sentences.text sentence <> "" ->
  sentenceMarksFrom content cur (sentence :: rest) =
  match sentenceMarksFrom content
          (JS.indexOf content (JS.slice0 (Sentences.text sentence) 5) cur +
           JS.length (Sentences.text sentence)) rest with
  | Ok ranges =>
      Ok (range (JS.indexOf content (JS.slice0 (Sentences.text sentence) 5) cur)
                (JS.indexOf content (JS.slice0 (Sentences.text sentence) 5) cur +
                 JS.length (Sentences.text sentence))
                (mark "Sentence") :: ranges)
  | Throw e => Throw e
  end.
Proof.
  intros Hne. unfold sentenceMarksFrom.
  rewrite sentences_run_cons, sentences_step_nonempty by done.
  cbn [Sentences.currOffset Sentences.sentenceMarks].
  rewrite sentences_run_app. cbn [Sentences.currOffset Sentences.sentenceMarks].
  by destruct (Sentences.run _ _ rest).
Qed.

Lemma sentenceMarksFrom_empty content cur sentence rest :
  Sentences.text sentence = "" ->
  sentenceMarksFrom content cur (sentence :: rest) =
  Throw "RangeError: Mark decorations may not be empty".
Proof.
  intros Hempty. unfold sentenceMarksFrom.
  by rewrite sentences_run_cons, sentences_step_empty.
Qed.

Lemma sentences_all_found_cons content cur sentence rest :
  Sentences.all_found content cur (sentence :: rest) =
  negb (JS.indexOf content (JS.slice0 (Sentences.text sentence) 5) cur =? -1) &&
  Sentences.all_found content
    (JS.indexOf content (JS.slice0 (Sentences.text sentence) 5) cur +
     JS.length (Sentences.text sentence)) rest.
Proof. done. Qed.

(** No sentence with an empty text: the pass returns. *)
Lemma sentenceMarksFrom_ok content l : forall cur,
  Forall (fun sentence => Sentences.text sentence <> "") l ->
  exists ranges, sentenceMarksFrom content cur l = Ok ranges.
Proof.
  induction l as [|sentence rest IH]; intros cur Hne.
  - by exists [].
  - apply Forall_cons in Hne as [Hs Hrest].
    rewrite sentenceMarksFrom_cons by done.
    destruct (IH (JS.indexOf content (JS.slice0 (Sentences.text sentence) 5) cur +
                  JS.length (Sentences.text sentence)) Hrest) as [ranges ->].
    by eexists.
Qed.

(** A sentence with an empty text: the pass throws. *)
Lemma sentenceMarksFrom_throw content l : forall cur,
  Exists (fun sentence => Sentences.text sentence = "") l ->
  sentenceMarksFrom content cur l = Throw "RangeError: Mark decorations may not be empty".
Proof.
  induction l as [|sentence rest IH]; intros cur Hex.
  - by apply Exists_nil in Hex.
  - destruct (String.eqb_spec (Sentences.text sentence) "") as [Hempty|Hne].
    + by apply sentenceMarksFrom_empty.
    + rewrite sentenceMarksFrom_cons by done.
      apply Exists_cons in Hex as [Hex|Hex]; [done|]. by rewrite IH.
Qed.

Lemma sentenceMarksFrom_chain content l : forall cur ranges,
  0 <= cur ->
  Forall (fun sentence => Sentences.text sentence <> "") l ->
  Sentences.all_found content cur l = true ->
  sentenceMarksFrom content cur l = Ok ranges ->
  StronglySorted RangeSet.before ranges /\
  Forall (fun r => cur <= from r < to r) ranges.
Proof.
  induction l as [|sentence rest IH]; intros cur ranges Hcur Hne Hfound Hrun.
  - injection Hrun as <-. split; constructor.
  - apply Forall_cons in Hne as [Hs Hrest].
    rewrite sentences_all_found_cons in Hfound.
    rewrite sentenceMarksFrom_cons in Hrun by done.
    apply andb_true_iff in Hfound as [Hidx Hfound].
    apply negb_true_iff, Z.eqb_neq in Hidx.
    destruct (indexOf_found _ _ _ Hidx) as [Hlo Hhi].
    assert (0 < JS.length (JS.slice0 (Sentences.text sentence) 5)) as Hpre.
    { unfold JS.length, JS.slice0. rewrite length_take.
      destruct (Sentences.text sentence); [done | simpl; lia]. }
    pose proof (length_pos _ Hs) as Hlen.
    unfold JS.clamp in Hlo.
    revert Hidx Hfound Hrun Hlo Hhi.
    generalize (JS.indexOf content (JS.slice0 (Sentences.text sentence) 5) cur) as idx.
    intros idx Hidx Hfound Hrun Hlo Hhi.
    destruct (sentenceMarksFrom content (idx + JS.length (Sentences.text sentence)) rest)
      as [ranges'|e] eqn:Hrest'; [|done].
    injection Hrun as <-.
    destruct (IH (idx + JS.length (Sentences.text sentence)) ranges'
                ltac:(lia) Hrest Hfound Hrest') as [Hsorted Hall].
    split.
    + constructor; [done|]. eapply Forall_impl; [exact Hall|].
      unfold RangeSet.before. cbn [from to]. intros r Hr. lia.
    + constructor; [cbn [from to]; lia|]. eapply Forall_impl; [exact Hall|].
      cbn beta. intros r Hr. lia.
Qed.

(** X7.  When every sentence is non-empty and its first five characters
    are found, the sentence pass returns, and of any two of its ranges the
    earlier one starts at or after [0] and before the later one, and they do
    not overlap. *)
Theorem sentences_forward_progress content l :
  Forall (fun sentence => Sentences.text sentence <> "") l ->
  Sentences.all_found content 0 l = true ->
  exists ranges,
    Sentences.highlight content l = Ok ranges /\
    forall i j r1 r2, (i < j)%nat ->
      ranges !! i = Some r1 ->
      ranges !! j = Some r2 ->
      0 <= from r1 /\ from r1 < from r2 /\
      ~ RangeSet.overlap r1 r2 /\ ~ RangeSet.overlap r2 r1.
Proof.
  intros Hne Hfound.
  destruct (sentenceMarksFrom_ok content l 0 Hne) as [ranges Hrun].
  exists ranges. split; [exact Hrun|].
  intros i j r1 r2 Hij H1 H2.
  destruct (sentenceMarksFrom_chain content l 0 ranges ltac:(lia) Hne Hfound Hrun)
    as [Hsorted Hall].
  pose proof (StronglySorted_lookup _ _ _ _ _ _ Hsorted Hij H1 H2) as Hb.
  rewrite Forall_forall in Hall.
  pose proof (Hall r1 (list_elem_of_lookup_2 _ _ _ H1)) as V1.
  pose proof (Hall r2 (list_elem_of_lookup_2 _ _ _ H2)) as V2.
  unfold RangeSet.before, RangeSet.overlap in *. lia.
Qed.

Lemma sentences_forward_progress_witness :
  exists ranges,
    Sentences.highlight "John ran. Mary ran."
      [Sentences.Build_Sentence "John ran."; Sentences.Build_Sentence "Mary ran."] =
      Ok ranges /\
    forall i j r1 r2, (i < j)%nat ->
      ranges !! i = Some r1 ->
      ranges !! j = Some r2 ->
      0 <= from r1 /\ from r1 < from r2 /\
      ~ RangeSet.overlap r1 r2 /\ ~ RangeSet.overlap r2 r1.
Proof.
  apply (sentences_forward_progress "John ran. Mary ran."
    [Sentences.Build_Sentence "John ran."; Sentences.Build_Sentence "Mary ran."]).
  - repeat constructor; discriminate.
  - reflexivity.
Defined.

Lemma sentenceMarksFrom_lookup content l : forall cur ranges,
  Forall (fun sentence => Sentences.text sentence <> "") l ->
  sentenceMarksFrom content cur l = Ok ranges ->
  length ranges = length l /\
  forall i sentence,
    l !! i = Some sentence ->
    exists r, ranges !! i = Some r /\
      to r = from r + JS.length (Sentences.text sentence) /\
      value r = mark "Sentence" /\
      (from r = -1 \/
       JS.occurs_at content (String.substring 0 5 (Sentences.text sentence)) (from r)).
Proof.
  induction l as [|s rest IH]; intros cur ranges Hne Hrun.
  - injection Hrun as <-. by split.
  - apply Forall_cons in Hne as [Hs Hrest].
    rewrite sentenceMarksFrom_cons in Hrun by done.
    destruct (sentenceMarksFrom content _ rest) as [ranges'|e] eqn:Hrest'; [|done].
    injection Hrun as <-.
    destruct (IH _ ranges' Hrest Hrest') as [Hlen Hlookup]. split.
    + simpl. by rewrite Hlen.
    + intros [|i] sentence Hi; simpl in Hi.
      * injection Hi as <-. eexists. split; [done|]. cbn [from to value].
        split; [done|]. split; [done|]. rewrite <- slice0_substring.
        destruct (indexOf_spec content (JS.slice0 (Sentences.text s) 5) cur)
          as [[H _]|(_ & H & _)]; [by left | by right].
      * by apply Hlookup.
Qed.

(** X8.  The sentence pass returns exactly when no sentence has an empty
    text.  It then returns one range for every sentence, found or not: the
    [i]-th range belongs to the [i]-th sentence, has the length of its text
    and the class "Sentence", and starts at [-1] or at an occurrence of the
    first five characters of the sentence.  When a sentence has an empty
    text the pass throws, and nothing is dispatched. *)
Theorem sentences_range_each content l :
  (Forall (fun sentence => Sentences.text sentence <> "") l ->
   exists ranges,
     Sentences.highlight content l = Ok ranges /\
     length ranges = length l /\
     forall i sentence,
       l !! i = Some sentence ->
       exists r, ranges !! i = Some r /\
         to r = from r + JS.length (Sentences.text sentence) /\
         value r = mark "Sentence" /\
         (from r = -1 \/
          JS.occurs_at content (String.substring 0 5 (Sentences.text sentence)) (from r))) /\
  (Exists (fun sentence => Sentences.text sentence = "") l ->
   Sentences.highlight content l =
     Throw "RangeError: Mark decorations may not be empty").
Proof.
  split.
  - intros Hne. destruct (sentenceMarksFrom_ok content l 0 Hne) as [ranges Hrun].
    exists ranges. split; [exact Hrun|].
    by apply (sentenceMarksFrom_lookup content l 0).
  - apply sentenceMarksFrom_throw.
Qed.

(** X9.  A non-empty sentence of at most five characters is searched for as
    a whole: when it is found, the range added lies inside the text and
    covers exactly the sentence, and the cursor moves to the end of the
    range. *)
Theorem sentences_short_exact content st sentence :
  Sentences.text sentence <> "" ->
  (String.length (Sentences.text sentence) <= 5)%nat ->
  JS.indexOf content (Sentences.text sentence) (Sentences.currOffset st) <> -1 ->
  exists r,
    Sentences.step content st sentence =
      Ok {| Sentences.currOffset := to r;
            Sentences.sentenceMarks := Sentences.sentenceMarks st ++ [r] |} /\
    0 <= from r /\ to r <= JS.length content /\
    String.substring (Z.to_nat (from r)) (String.length (Sentences.text sentence)) content =
      Sentences.text sentence.
Proof.
  intros Hne Hshort Hidx. rewrite sentences_step_nonempty by done.
  unfold JS.slice0. rewrite take_all by done.
  destruct (indexOf_spec content (Sentences.text sentence) (Sentences.currOffset st))
    as [[H _]|(Hlo & Hocc & _)]; [done|].
  pose proof (clamp_range content (Sentences.currOffset st)).
  pose proof Hocc as (H0 & Hhi & _).
  exists (range (JS.indexOf content (Sentences.text sentence) (Sentences.currOffset st))
                (JS.indexOf content (Sentences.text sentence) (Sentences.currOffset st) +
                 JS.length (Sentences.text sentence))
                (mark "Sentence")).
  split; [reflexivity|]. cbn [from to]. repeat split; try lia.
  by apply occurs_at_substring.
Qed.

Lemma sentences_short_exact_witness :
  exists r,
    Sentences.step "Go. Stop." Sentences.init (Sentences.Build_Sentence "Go.") =
      Ok {| Sentences.currOffset := to r;
            Sentences.sentenceMarks := Sentences.sentenceMarks Sentences.init ++ [r] |} /\
    0 <= from r /\ to r <= JS.length "Go. Stop." /\
    String.substring (Z.to_nat (from r))
      (String.length (Sentences.text (Sentences.Build_Sentence "Go."))) "Go. Stop." =
      Sentences.text (Sentences.Build_Sentence "Go.").
Proof.
  apply (sentences_short_exact "Go. Stop." Sentences.init (Sentences.Build_Sentence "Go.")).
  - discriminate.
  - simpl. lia.
  - discriminate.
Defined.

(** ** The aggregate queries *)

Lemma count_pos w values :
  length (List.filter (String.eqb w) values) <> O <-> w ∈ values.
Proof.
  induction values as [|v values IH]; simpl.
  - rewrite elem_of_nil. tauto.
  - rewrite elem_of_cons. destruct (String.eqb_spec w v) as [->|Hne]; simpl.
    + split; [by left | done].
    + rewrite IH. split; [by right | by intros [?|?]].
Qed.

Lemma as_bow_dom values : dom (Wink.as_bow values) = Wink.as_set values.
Proof.
  apply set_eq. intros w. unfold Wink.as_bow, Wink.as_set.
  rewrite elem_of_dom, as_bow_fold, as_set_fold, lookup_empty, <- count_pos.
  destruct (length _); split.
  - by intros [? ?].
  - intros [?|H]; [done | by apply elem_of_empty in H].
  - by left.
  - by eexists.
Qed.

(** X10.  The two queries agree: the set of terms is the set of the words
    that the bag counts, for every document argument and collection. *)
Theorem noStop_set_is_bow_domain doc type :
  dom (getNoStopBoW doc type) = getNoStopSet doc type.
Proof.
  destruct doc as [| |d]; simpl; [apply dom_empty_L | apply dom_empty_L |].
  apply as_bow_dom.
Qed.

Lemma as_bow_total values : forall bow : gmap string nat,
  map_fold (fun _ n acc => (n + acc)%nat) O
    (fold_left (fun bow v => <[v := S (default O (bow !! v))]> bow) values bow) =
  (length values + map_fold (fun _ n acc => (n + acc)%nat) O bow)%nat.
Proof.
  induction values as [|v values IH]; intros bow; simpl; [done|].
  rewrite IH. destruct (bow !! v) as [n|] eqn:E; simpl.
  - rewrite <- insert_delete_eq.
    rewrite map_fold_insert_L; [|intros; lia | apply lookup_delete_eq].
    rewrite (map_fold_delete_L _ _ v n bow); [lia | intros; lia | done].
  - rewrite map_fold_insert_L; [lia | intros; lia | done].
Qed.

(** X11.  The counts of the bag add up to the number of items of the
    collection that are of type "word" and not flagged as stop words. *)
Theorem noStop_bow_total doc type :
  map_fold (fun _ n acc => (n + acc)%nat) O (getNoStopBoW (object doc) type) =
  length (List.filter noStop (Wink.collection doc (default Wink.Tokens type))).
Proof.
  unfold getNoStopBoW, Wink.as_bow. rewrite as_bow_total, map_fold_empty.
  rewrite length_map. lia.
Qed.

(** ** The document cache *)

Section DocCacheMore.

Variable activeFile : Nullable TFile.
Variable cachedRead : TFile -> result string.
Variable readDoc : string -> result Wink.Document.

Lemma refreshLoop_keeps files : forall docs p,
  (is_Some (docs !! p) ->
   is_Some ((refreshLoop activeFile cachedRead readDoc files docs).1 !! p)) /\
  (p ∉ map path files ->
   (refreshLoop activeFile cachedRead readDoc files docs).1 !! p = docs !! p).
Proof.
  induction files as [|file rest IH]; intros docs p; [done|].
  rewrite refreshLoop_cons.
  destruct (getWinkDocFromFile activeFile cachedRead readDoc (object file)) as [doc|e];
    [|done].
  destruct (IH (<[path file := doc]> docs) p) as [Hkeep Hsame]. split.
  - intros Hp. apply Hkeep. rewrite lookup_insert. by case_decide.
  - intros Hp. simpl in Hp. apply not_elem_of_cons in Hp as [Hne Hp].
    rewrite Hsame by done. by rewrite lookup_insert_ne.
Qed.

Lemma refreshLoop_ok_iff files : forall docs,
  (refreshLoop activeFile cachedRead readDoc files docs).2 = None <->
  Forall (fun file => exists doc,
            getWinkDocFromFile activeFile cachedRead readDoc (object file) = Ok doc) files.
Proof.
  induction files as [|file rest IH]; intros docs.
  - split; [constructor | done].
  - rewrite refreshLoop_cons, Forall_cons.
    destruct (getWinkDocFromFile activeFile cachedRead readDoc (object file)) as [doc|e].
    + rewrite IH. split; [by eauto | by intros [_ ?]].
    + simpl. split; [done | by intros [[? ?] _]].
Qed.

Lemma refreshLoop_fixed files : forall docs,
  (forall file doc, file ∈ files ->
     getWinkDocFromFile activeFile cachedRead readDoc (object file) = Ok doc ->
     docs !! path file = Some doc) ->
  Forall (fun file => exists doc,
            getWinkDocFromFile activeFile cachedRead readDoc (object file) = Ok doc) files ->
  refreshLoop activeFile cachedRead readDoc files docs = (docs, None).
Proof.
  induction files as [|file rest IH]; intros docs Hin Hok; [done|].
  apply Forall_cons in Hok as [[doc Hdoc] Hok].
  rewrite refreshLoop_cons, Hdoc.
  rewrite insert_id by (apply Hin; [left | done]).
  apply IH; [|done]. intros f d Hf. apply Hin. by right.
Qed.

End DocCacheMore.

(** X12.  A refresh never removes an entry of the cache, and it leaves the
    entry of every path that is not among the files as it was, whether it
    fails or not. *)
Theorem refresh_keeps_entries activeFile cachedRead readDoc files docs p :
  (is_Some (docs !! p) ->
   is_Some (Docs (refreshDocs activeFile cachedRead readDoc files docs) !! p)) /\
  (p ∉ map path files ->
   Docs (refreshDocs activeFile cachedRead readDoc files docs) !! p = docs !! p).
Proof.
  pose proof (refreshLoop_keeps activeFile cachedRead readDoc files docs p) as H.
  unfold refreshDocs.
  by destruct (refreshLoop activeFile cachedRead readDoc files docs) as [docs' [e|]].
Qed.

(** X13.  The notice ends with "Docs Refreshed" exactly when every file is
    read and analysed without an exception, and exactly then the console
    receives the line of the timer only, with no exception before it. *)
Theorem refresh_success_iff activeFile cachedRead readDoc files docs :
  (notice (refreshDocs activeFile cachedRead readDoc files docs) =
     ["Refreshing docs..."; "Docs Refreshed"] <->
   Forall (fun file => exists doc,
             getWinkDocFromFile activeFile cachedRead readDoc (object file) = Ok doc) files) /\
  (console (refreshDocs activeFile cachedRead readDoc files docs) =
     [timeEnd "refreshDocs"] <->
   Forall (fun file => exists doc,
             getWinkDocFromFile activeFile cachedRead readDoc (object file) = Ok doc) files).
Proof.
  rewrite <- (refreshLoop_ok_iff activeFile cachedRead readDoc files docs).
  unfold refreshDocs.
  destruct (refreshLoop activeFile cachedRead readDoc files docs) as [docs' [e|]]; simpl;
    split; split; done.
Qed.

(** X14.  A refresh in which no file fails is idempotent: a second refresh
    over the same files leaves the cache as the first one left it. *)
Theorem refresh_idempotent activeFile cachedRead readDoc files docs :
  Forall (fun file => exists doc,
            getWinkDocFromFile activeFile cachedRead readDoc (object file) = Ok doc) files ->
  Docs (refreshDocs activeFile cachedRead readDoc files
          (Docs (refreshDocs activeFile cachedRead readDoc files docs))) =
  Docs (refreshDocs activeFile cachedRead readDoc files docs).
Proof.
  intros Hok.
  destruct (refreshLoop_prefix activeFile cachedRead readDoc files docs Hok)
    as (docs' & Hloop & Hin & _).
  specialize (Hloop []). rewrite app_nil_r in Hloop.
  unfold refreshDocs at 2. unfold refreshDocs at 2. rewrite Hloop. simpl.
  unfold refreshDocs. by rewrite refreshLoop_fixed.
Qed.

Lemma refresh_idempotent_witness :
  Docs (refreshDocs null scenarioE_cachedRead scenarioE_readDoc
          [ {| path := "1.md" |}; {| path := "3.md" |} ]
          (Docs (refreshDocs null scenarioE_cachedRead scenarioE_readDoc
                   [ {| path := "1.md" |}; {| path := "3.md" |} ] ∅))) =
  Docs (refreshDocs null scenarioE_cachedRead scenarioE_readDoc
          [ {| path := "1.md" |}; {| path := "3.md" |} ] ∅).
Proof.
  apply (refresh_idempotent null scenarioE_cachedRead scenarioE_readDoc
           [ {| path := "1.md" |}; {| path := "3.md" |} ] ∅).
  repeat constructor; exists (object scenarioE_doc); reflexivity.
Defined.

(** X15.  After a refresh in which no file fails, the path of every file
    maps to the document analysed from the text of that file; no path of a
    file maps to [null]. *)
Theorem refresh_all_cached activeFile cachedRead readDoc files docs :
  Forall (fun file => exists doc,
            getWinkDocFromFile activeFile cachedRead readDoc (object file) = Ok doc) files ->
  forall file, file ∈ files ->
    exists text doc,
      cachedRead file = Ok text /\ readDoc text = Ok doc /\
      Docs (refreshDocs activeFile cachedRead readDoc files docs) !! path file =
        Some (object doc).
Proof.
  intros Hok file Hfile.
  destruct (refresh_complete activeFile cachedRead readDoc files docs Hok) as [Hin _].
  rewrite Forall_forall in Hok. destruct (Hok file Hfile) as [d Hd].
  specialize (Hin file d Hfile Hd). revert Hd. unfold getWinkDocFromFile.
  destruct (cachedRead file) as [text|e]; [|done].
  destruct (readDoc text) as [doc|e] eqn:E; [|done].
  intros [= <-]. by exists text, doc.
Qed.

Lemma refresh_all_cached_witness :
  exists text doc,
    scenarioE_cachedRead {| path := "3.md" |} = Ok text /\
    scenarioE_readDoc text = Ok doc /\
    Docs (refreshDocs null scenarioE_cachedRead scenarioE_readDoc
            [ {| path := "1.md" |}; {| path := "3.md" |} ] ∅) !! path {| path := "3.md" |} =
      Some (object doc).
Proof.
  apply (refresh_all_cached null scenarioE_cachedRead scenarioE_readDoc
           [ {| path := "1.md" |}; {| path := "3.md" |} ] ∅).
  - repeat constructor; exists (object scenarioE_doc); reflexivity.
  - repeat constructor.
Defined.

(** ** Start-up *)

Section OnloadMore.

Variable settings : Settings.
Variable read : string -> result string.
Variable normalizePath : string -> string.
Variable JSON_parse : string -> result (list CustomEntityExample).
Variable learn : list CustomEntityExample -> result unit.
Variable TEXT_MANIPULATION_CMDS : list (string * list string).
Variable ENTITIES : list string.

Lemma registerAll_result p :
  registerAll settings TEXT_MANIPULATION_CMDS ENTITIES p =
  ({| settingTabs := settingTabs p; learnedEntities := learnedEntities p;
      commands := commands p ++ allCommands TEXT_MANIPULATION_CMDS ENTITIES;
      editorExtensions := editorExtensions p ++ [StateField "markField"];
      layoutReadyCallbacks :=
        if refreshDocsOnLoad settings then S (layoutReadyCallbacks p)
        else layoutReadyCallbacks p |}, Ok tt).
Proof.
  unfold registerAll.
  erewrite bind_ok by apply forEach_addCommand.
  erewrite bind_ok by apply addCommand_spec.
  erewrite bind_ok by reflexivity.
  erewrite bind_ok by apply addCommand_spec.
  erewrite bind_ok by apply addCommand_spec.
  erewrite bind_ok
    by apply (forEach_nested (fun entry => manipulationCommand (fst entry)) snd
                TEXT_MANIPULATION_CMDS).
  erewrite bind_ok by apply forEach_addCommand.
  unfold allCommands, onLayoutReady, ret, addCommands, registerEditorExtension.
  destruct (refreshDocsOnLoad settings); simpl; rewrite <- !app_assoc; done.
Qed.

Lemma loadCustomEntities_ok p str examples :
  customEntityFilePath settings <> "" ->
  read (normalizePath (customEntityFilePath settings)) = Ok str ->
  JSON_parse str = Ok examples ->
  loadCustomEntities settings read normalizePath JSON_parse learn p =
  learnCustomEntities learn examples p.
Proof.
  intros Hpath Hread Hparse. unfold loadCustomEntities.
  apply String.eqb_neq in Hpath. rewrite Hpath.
  erewrite bind_ok by (unfold lift; by rewrite Hread).
  erewrite bind_ok by (unfold lift; by rewrite Hparse). done.
Qed.

Lemma learnCustomEntities_ok p examples :
  learn examples = Ok tt ->
  learnCustomEntities learn examples p =
  ({| settingTabs := settingTabs p; learnedEntities := Some examples;
      commands := commands p; editorExtensions := editorExtensions p;
      layoutReadyCallbacks := layoutReadyCallbacks p |}, Ok tt).
Proof. unfold learnCustomEntities. by intros ->. Qed.

Lemma learnCustomEntities_throw p examples e :
  learn examples = Throw e -> learnCustomEntities learn examples p = (p, Throw e).
Proof. unfold learnCustomEntities. by intros ->. Qed.

(** [onload] either throws while it loads the custom entities, or goes
    through all registrations. *)
Lemma onload_cases :
  (exists e,
     onload settings read normalizePath JSON_parse learn TEXT_MANIPULATION_CMDS ENTITIES
       unloaded =
     ({| settingTabs := 1; learnedEntities := None; commands := [];
         editorExtensions := []; layoutReadyCallbacks := 0 |}, Throw e)) \/
  (exists learned,
     onload settings read normalizePath JSON_parse learn TEXT_MANIPULATION_CMDS ENTITIES
       unloaded =
     ({| settingTabs := 1; learnedEntities := learned;
         commands := allCommands TEXT_MANIPULATION_CMDS ENTITIES;
         editorExtensions := [StateField "markField"];
         layoutReadyCallbacks := if refreshDocsOnLoad settings then 1%nat else 0%nat |},
      Ok tt)).
Proof.
  unfold onload. erewrite bind_ok by reflexivity.
  destruct (String.eqb_spec (customEntityFilePath settings) "") as [Hpath|Hpath].
  - right. exists None.
    erewrite bind_ok by by apply loadCustomEntities_none.
    by rewrite registerAll_result.
  - destruct (read (normalizePath (customEntityFilePath settings))) as [str|e] eqn:Hread.
    + destruct (JSON_parse str) as [examples|e] eqn:Hparse.
      * destruct (learn examples) as [[]|e] eqn:Hlearn.
        -- right. exists (Some examples).
           erewrite bind_ok.
           2: { rewrite (loadCustomEntities_ok _ str examples) by done.
                by apply learnCustomEntities_ok. }
           by rewrite registerAll_result.
        -- left. exists e.
           erewrite bind_throw; [done|].
           rewrite (loadCustomEntities_ok _ str examples) by done.
           by apply learnCustomEntities_throw.
      * left. exists e.
        erewrite bind_throw; [done|].
        apply loadCustomEntities_throw; [done|]. right. by exists str.
    + left. exists e.
      erewrite bind_throw; [done|].
      apply loadCustomEntities_throw; [done|]. by left.
Qed.

End OnloadMore.

(** X16.  Registration is all or nothing.  For every environment [onload]
    adds the setting tab once, and then either returns with all commands, the
    editor extension and, when the setting asks for it, the layout-ready
    callback registered, or throws with no command, no editor extension and
    no callback registered. *)
Theorem onload_all_or_nothing settings read normalizePath JSON_parse learn
    TEXT_MANIPULATION_CMDS ENTITIES :
  settingTabs
    (onload settings read normalizePath JSON_parse learn TEXT_MANIPULATION_CMDS ENTITIES
       unloaded).1 = 1%nat /\
  (((onload settings read normalizePath JSON_parse learn TEXT_MANIPULATION_CMDS ENTITIES
       unloaded).2 = Ok tt /\
    commands (onload settings read normalizePath JSON_parse learn TEXT_MANIPULATION_CMDS ENTITIES
                unloaded).1 = allCommands TEXT_MANIPULATION_CMDS ENTITIES /\
    editorExtensions
      (onload settings read normalizePath JSON_parse learn TEXT_MANIPULATION_CMDS ENTITIES
         unloaded).1 = [StateField "markField"] /\
    layoutReadyCallbacks
      (onload settings read normalizePath JSON_parse learn TEXT_MANIPULATION_CMDS ENTITIES
         unloaded).1 = (if refreshDocsOnLoad settings then 1%nat else 0%nat)) \/
   (exists e,
      (onload settings read normalizePath JSON_parse learn TEXT_MANIPULATION_CMDS ENTITIES
         unloaded).2 = Throw e /\
      commands (onload settings read normalizePath JSON_parse learn TEXT_MANIPULATION_CMDS ENTITIES
                  unloaded).1 = [] /\
      editorExtensions
        (onload settings read normalizePath JSON_parse learn TEXT_MANIPULATION_CMDS ENTITIES
           unloaded).1 = [] /\
      layoutReadyCallbacks
        (onload settings read normalizePath JSON_parse learn TEXT_MANIPULATION_CMDS ENTITIES
           unloaded).1 = 0%nat)).
Proof.
  destruct (onload_cases settings read normalizePath JSON_parse learn
              TEXT_MANIPULATION_CMDS ENTITIES) as [[e ->]|[learned ->]]; simpl.
  - split; [done|]. right. by exists e.
  - split; [done|]. by left.
Qed.

(** X17.  With a custom-entity file that is read and parsed without an
    exception and whose examples the model accepts, [onload] returns; the
    model has learned the parsed examples, and all commands and the editor
    extension are registered.  When the model throws on the examples,
    [onload] throws the same exception and nothing is registered. *)
Theorem onload_learns_entities settings read normalizePath JSON_parse learn
    TEXT_MANIPULATION_CMDS ENTITIES str examples :
  customEntityFilePath settings <> "" ->
  read (normalizePath (customEntityFilePath settings)) = Ok str ->
  JSON_parse str = Ok examples ->
  (learn examples = Ok tt ->
   onload settings read normalizePath JSON_parse learn TEXT_MANIPULATION_CMDS ENTITIES
     unloaded =
   ({| settingTabs := 1; learnedEntities := Some examples;
       commands := allCommands TEXT_MANIPULATION_CMDS ENTITIES;
       editorExtensions := [StateField "markField"];
       layoutReadyCallbacks := if refreshDocsOnLoad settings then 1%nat else 0%nat |},
    Ok tt)) /\
  (forall e,
   learn examples = Throw e ->
   onload settings read normalizePath JSON_parse learn TEXT_MANIPULATION_CMDS ENTITIES
     unloaded =
   ({| settingTabs := 1; learnedEntities := None; commands := [];
       editorExtensions := []; layoutReadyCallbacks := 0 |}, Throw e)).
Proof.
  intros Hpath Hread Hparse. split.
  - intros Hlearn. unfold onload.
    erewrite bind_ok by reflexivity.
    erewrite bind_ok.
    2: { rewrite (loadCustomEntities_ok settings read normalizePath JSON_parse learn
                    _ str examples) by done.
         by apply learnCustomEntities_ok. }
    by rewrite registerAll_result.
  - intros e Hlearn. unfold onload.
    erewrite bind_ok by reflexivity.
    erewrite bind_throw; [done|].
    rewrite (loadCustomEntities_ok settings read normalizePath JSON_parse learn
               _ str examples) by done.
    by apply learnCustomEntities_throw.
Qed.

Lemma onload_learns_entities_witness :
  onload {| customEntityFilePath := "entities.json"; refreshDocsOnLoad := true |}
         (fun _ => Ok "[]") (fun p => p)
         (fun _ => Ok [ {| entity_name := "city"; patterns := ["[PROPN]"] |} ])
         (fun _ => Ok tt)
         [("nouns", ["toPlural"])] ["people"] unloaded =
  ({| settingTabs := 1;
      learnedEntities := Some [ {| entity_name := "city"; patterns := ["[PROPN]"] |} ];
      commands := allCommands [("nouns", ["toPlural"])] ["people"];
      editorExtensions := [StateField "markField"];
      layoutReadyCallbacks :=
        if refreshDocsOnLoad
             {| customEntityFilePath := "entities.json"; refreshDocsOnLoad := true |}
        then 1%nat else 0%nat |},
   Ok tt).
Proof.
  apply (proj1 (onload_learns_entities
           {| customEntityFilePath := "entities.json"; refreshDocsOnLoad := true |}
           (fun _ => Ok "[]") (fun p => p)
           (fun _ => Ok [ {| entity_name := "city"; patterns := ["[PROPN]"] |} ])
           (fun _ => Ok tt)
           [("nouns", ["toPlural"])] ["people"] "[]"
           [ {| entity_name := "city"; patterns := ["[PROPN]"] |} ]
           ltac:(discriminate) eq_refl eq_refl)).
  reflexivity.
Defined.

(** ** The settings *)

Lemma loadSettings_object {V} (DEFAULT_SETTINGS data : gmap string V) :
  loadSettings V DEFAULT_SETTINGS (object data) = data ∪ DEFAULT_SETTINGS.
Proof. unfold loadSettings, Object_assign; simpl. by rewrite (right_id_L ∅ (∪)). Qed.

(** X18.  In the loaded settings a key that the saved data defines has the
    saved value, any other key has its default value; with no saved data the
    settings are the defaults. *)
Theorem loadSettings_lookup {V} (DEFAULT_SETTINGS : gmap string V) :
  loadSettings V DEFAULT_SETTINGS null = DEFAULT_SETTINGS /\
  loadSettings V DEFAULT_SETTINGS undefined = DEFAULT_SETTINGS /\
  forall data key,
    loadSettings V DEFAULT_SETTINGS (object data) !! key =
    match data !! key with
    | Some v => Some v
    | None => DEFAULT_SETTINGS !! key
    end.
Proof.
  split; [|split].
  - unfold loadSettings, Object_assign; simpl. by rewrite (right_id_L ∅ (∪)).
  - unfold loadSettings, Object_assign; simpl. by rewrite (right_id_L ∅ (∪)).
  - intros data key. rewrite loadSettings_object, lookup_union.
    by destruct (data !! key), (DEFAULT_SETTINGS !! key).
Qed.

(** X19.  Settings that define every key of the defaults survive a save
    followed by a load unchanged; the settings a load returns define every
    key of the defaults, so they survive a save followed by a load
    unchanged. *)
Theorem settings_round_trip {V} (DEFAULT_SETTINGS : gmap string V) :
  (forall settings,
     (forall key, is_Some (DEFAULT_SETTINGS !! key) -> is_Some (settings !! key)) ->
     loadSettings V DEFAULT_SETTINGS (saveSettings V settings) = settings) /\
  (forall data key,
     is_Some (DEFAULT_SETTINGS !! key) ->
     is_Some (loadSettings V DEFAULT_SETTINGS data !! key)) /\
  (forall data,
     loadSettings V DEFAULT_SETTINGS
       (saveSettings V (loadSettings V DEFAULT_SETTINGS data)) =
     loadSettings V DEFAULT_SETTINGS data).
Proof.
  assert (Hround : forall settings,
     (forall key, is_Some (DEFAULT_SETTINGS !! key) -> is_Some (settings !! key)) ->
     loadSettings V DEFAULT_SETTINGS (saveSettings V settings) = settings).
  { intros settings Hdom. unfold saveSettings. rewrite loadSettings_object.
    apply map_eq. intros key. rewrite lookup_union. specialize (Hdom key).
    destruct (settings !! key) eqn:E1, (DEFAULT_SETTINGS !! key) eqn:E2; simpl; try done.
    destruct Hdom as [? ?]; [by eexists | done]. }
  assert (Hdefined : forall data key,
     is_Some (DEFAULT_SETTINGS !! key) ->
     is_Some (loadSettings V DEFAULT_SETTINGS data !! key)).
  { intros data key Hkey. destruct data as [| |data].
    - unfold loadSettings, Object_assign; simpl. by rewrite (right_id_L ∅ (∪)).
    - unfold loadSettings, Object_assign; simpl. by rewrite (right_id_L ∅ (∪)).
    - rewrite loadSettings_object, lookup_union.
      destruct Hkey as [d Hd]. rewrite Hd. destruct (data !! key); by eexists. }
  split; [exact Hround|]. split; [exact Hdefined|].
  intros data. apply Hround. intros key. apply Hdefined.
Qed.

Lemma settings_round_trip_witness :
  loadSettings nat {[ "limit" := 10%nat ]}
    (saveSettings nat {[ "limit" := 3%nat ; "depth" := 2%nat ]}) =
  {[ "limit" := 3%nat ; "depth" := 2%nat ]}.
Proof.
  apply (proj1 (settings_round_trip {[ "limit" := 10%nat ]})).
  intros key [v Hkey]. apply lookup_singleton_Some in Hkey as [<- _].
  by eexists.
Defined.

(** ** The active file *)

(** X20.  Without an argument [getWinkDocFromFile] analyses the text that
    [getActiveFileContent] returns with its default argument: it returns
    [null] when there is no active file, throws what the read throws, and
    otherwise returns or throws as [readDoc] does on that text. *)
Theorem getWinkDocFromFile_active activeFile cachedRead read readDoc :
  getWinkDocFromFile activeFile cachedRead readDoc undefined =
  match getActiveFileContent activeFile cachedRead read None with
  | Ok (object text) =>
      match readDoc text with
      | Ok doc => Ok (object doc)
      | Throw e => Throw e
      end
  | Ok _ => Ok null
  | Throw e => Throw e
  end.
Proof.
  unfold getWinkDocFromFile, getActiveFileContent; simpl.
  destruct activeFile as [| |file]; try done.
  by destruct (cachedRead file).
Qed.

(** ** Empty fragments *)

Lemma clamp_clamp s p : JS.clamp s (JS.clamp s p) = JS.clamp s p.
Proof. unfold JS.clamp, JS.length. lia. Qed.

Lemma indexOf_clamp s t p : JS.indexOf s t (JS.clamp s p) = JS.indexOf s t p.
Proof. unfold JS.indexOf. by rewrite clamp_clamp. Qed.

Lemma posMarksFrom_clamp content termsArr cur :
  posMarksFrom content (JS.clamp content cur) termsArr = posMarksFrom content cur termsArr.
Proof.
  destruct termsArr as [|term rest]; [done|].
  by rewrite !posMarksFrom_cons, indexOf_clamp.
Qed.

(** X21.  Fragments with an empty text have no effect on the result: the
    pass returns the same ranges with them as without them, for every text
    and every list of fragments. *)
Theorem pos_empty_fragments_irrelevant content termsArr :
  PoS.highlight content termsArr =
  PoS.highlight content
    (List.filter (fun term => negb (String.eqb (PoS.text term) "")) termsArr).
Proof.
  change (PoS.highlight content ?l) with (posMarksFrom content 0 l).
  generalize 0 as cur.
  induction termsArr as [|term rest IH]; intros cur; [done|].
  simpl. destruct (String.eqb_spec (PoS.text term) "") as [Hempty|Hne]; simpl.
  - rewrite posMarksFrom_cons, Hempty, indexOf_empty. simpl.
    rewrite Z.add_0_r, posMarksFrom_clamp. apply IH.
  - rewrite !posMarksFrom_cons, IH. done.
Qed.
